(** * Lab1Code: gravitational potential, force field and rocket altitude

    A shallow embedding of [Lab1/Lab1Code.ipynb] and the properties its
    specification states about it.

    Arithmetic model.  The notebook computes with numpy [float64] values.
    They are embedded as real numbers [R], and every numpy operation as its
    exact counterpart of the Standard Library:

      [np.sqrt]     [sqrt]          [x**2]       [x ^ 2]
      [np.maximum]  [Rmax]          [np.log]     [ln]
      [+ - * /]     [Rplus] ... [Rdiv]
      [scipy.integrate.quad]        the Riemann integral [RiemannInt]

    Rounding, overflow, NaN and infinities are therefore outside the model:
    "finite" is rendered as "the divisor is bounded away from zero and the
    result is bounded".  Arrays are lists of rows, read with stdpp's lookup
    and written with its insert; a read or write outside the array is an
    [IndexError] in Python and [None] here. *)

From Stdlib Require Import Reals Lra Lia Permutation ClassicalEpsilon.
From stdpp Require Import list option.

Local Open Scope R_scope.

(** ** Constants (lines 5-17) *)

Definition G : R := 6.67e-11.
Definition g : R := 9.81.
Definition M_earth : R := 5.9e24.
Definition M_moon : R := 7.3e22.
Definition R_earth : R := 6378e3.
Definition R_moon : R := 1737e3.
Definition d_earth_moon : R := 3.8e8.
Definition m_cmd : R := 5500.
Definition ve : R := 2.4e3.
Definition mdot : R := 1.3e4.
Definition m0 : R := 2.8e6.
Definition mf : R := 7.5e5.

(** ** Part 1: gravitational potential (lines 20-23) *)

Definition gravitational_potential (M xM yM x y : R) : R :=
  let r := sqrt ((x - xM) ^ 2 + (y - yM) ^ 2) in
  let r := Rmax r 1e3 in
  - G * M / r.

(** ** Part 3: gravitational force (lines 79-86) *)

Definition gravitational_force (M1 m2 x1 y1 x2 y2 : R) : R * R :=
  let dx := x2 - x1 in
  let dy := y2 - y1 in
  let r2 := dx ^ 2 + dy ^ 2 in
  let r2 := Rmax r2 1e6 in
  let r := sqrt r2 in
  let F := - G * M1 * m2 / r2 in
  (F * dx / r, F * dy / r).

(** One entry of [np.sqrt(Fx_total**2 + Fy_total**2)] (line 100). *)
Definition norm2 (Fx Fy : R) : R := sqrt (Fx ^ 2 + Fy ^ 2).

(** ** Part 4: rocket altitude (lines 112-123) *)

Definition delta_v (t m0 mf mdot ve g : R) : R :=
  let m_t := Rmax (m0 - mdot * t) mf in
  if Rgt_dec m_t mf then ve * ln (m0 / m_t) - g * t else 0.

Definition T : R := (m0 - mf) / mdot.

Definition v_func : R -> R := fun t => delta_v t m0 mf mdot ve g.

(** [quad(f, a, b)] returns the definite integral of [f] from [a] to [b] and
    an error estimate, which line 123 discards.  In exact arithmetic the
    first is the Riemann integral, chosen here among the values of
    [RiemannInt] (they all agree, whatever the proof of integrability). *)
Definition quad (f : R -> R) (a b : R) : R :=
  epsilon (inhabits 0)
          (fun I => exists pr : Riemann_integrable f a b, I = RiemannInt pr).

Definition h : R := quad v_func 0 T.

(** The velocity of the burning branch of [delta_v], its antiderivative in
    [t], and the value of the integral over the whole burn in closed form. *)
Definition burning_velocity (m0 mdot ve g t : R) : R :=
  ve * ln (m0 / (m0 - mdot * t)) - g * t.

Definition altitude_antiderivative (m0 mdot ve g t : R) : R :=
  ve * t - ve / mdot * ((m0 - mdot * t) * ln (m0 / (m0 - mdot * t)))
  - g / 2 * t ^ 2.

Definition altitude_closed_form (m0 mf mdot ve g : R) : R :=
  let T := (m0 - mf) / mdot in
  ve * (T - mf / mdot * ln (m0 / mf)) - g * T ^ 2 / 2.

(** ** Arrays

    A 2-D numpy array is a list of rows.  An operator applied to two arrays
    of one shape acts entry by entry ([broadcast2]); a scalar argument is the
    same at every entry. *)

Definition broadcast2 (f : R -> R -> R) (A B : list (list R)) : list (list R) :=
  zip_with (zip_with f) A B.

(** [np.linspace(start, stop, num)]: [arange(0, num) * step + start] with
    [step = (stop - start) / (num - 1)].  (numpy then stores [stop] in the
    last entry; in exact arithmetic that entry is [stop] already.) *)
Definition linspace (start stop : R) (num : nat) : list R :=
  let step := (stop - start) / INR (num - 1) in
  map (fun k => INR k * step + start) (seq 0 num).

(** [np.meshgrid(x, y)]: [X[i, j] = x[j]] and [Y[i, j] = y[i]]. *)
Definition meshgrid (x y : list R) : list (list R) * list (list R) :=
  (map (fun _ => x) y, map (fun yi => map (fun _ => yi) x) y).

Definition zeros_like (A : list (list R)) : list (list R) :=
  map (map (fun _ => 0)) A.

(** [A[i, j]] and [A[i, j] = v]; [None] is Python's [IndexError]. *)
Definition getitem2 (A : list (list R)) (i j : nat) : option R :=
  row ← A !! i; row !! j.

Definition setitem2 (A : list (list R)) (i j : nat) (v : R)
  : option (list (list R)) :=
  row ← A !! i;
  if decide (j < length row)%nat then Some (<[i := <[j := v]> row]> A) else None.

(** [for a in l: s = body(a, s)], stopping at the first exception. *)
Fixpoint for_in {A S : Type} (l : list A) (body : A -> S -> option S) (s : S)
  : option S :=
  match l with
  | [] => Some s
  | a :: l' => s' ← body a s; for_in l' body s'
  end.

(** ** The sampling grid (lines 39-42) *)

Definition grid_pts : nat := 500.
Definition x : list R :=
  linspace (-1.5 * d_earth_moon) (1.5 * d_earth_moon) grid_pts.
Definition y : list R :=
  linspace (-1.5 * d_earth_moon) (1.5 * d_earth_moon) grid_pts.
Definition X : list (list R) := fst (meshgrid x y).
Definition Y : list (list R) := snd (meshgrid x y).

(** ** Part 1 and 2 on the grid (lines 43, 55-57) *)

(** [gravitational_potential] called with arrays [X], [Y]: every operation in
    its body is entry-wise. *)
Definition gravitational_potential_grid (M xM yM : R) (X Y : list (list R))
  : list (list R) :=
  broadcast2 (gravitational_potential M xM yM) X Y.

Definition phi : list (list R) := gravitational_potential_grid M_earth 0 0 X Y.

Definition x_moon : R := d_earth_moon / sqrt 2.
Definition y_moon : R := d_earth_moon / sqrt 2.

(** The sum of the potentials of two sources over a grid; line 57 is the
    instance [phi_total]. *)
Definition potential_sum (Ma xa ya Mb xb yb : R) (X Y : list (list R))
  : list (list R) :=
  broadcast2 Rplus (gravitational_potential_grid Ma xa ya X Y)
                   (gravitational_potential_grid Mb xb yb X Y).

Definition phi_total : list (list R) :=
  potential_sum M_earth 0 0 M_moon x_moon y_moon X Y.

(** ** Part 3 on the grid (lines 89-100) *)

(** The loop body, lines 94-98, on the pair [(Fx_total, Fy_total)]. *)
Definition force_cell (X Y : list (list R)) (ij : nat * nat)
    (F : list (list R) * list (list R))
  : option (list (list R) * list (list R)) :=
  let '(i, j) := ij in
  x_pos ← getitem2 X i j;
  y_pos ← getitem2 Y i j;
  let '(Fx1, Fy1) := gravitational_force M_earth m_cmd 0 0 x_pos y_pos in
  let '(Fx2, Fy2) := gravitational_force M_moon m_cmd x_moon y_moon x_pos y_pos in
  Fx_total ← setitem2 (fst F) i j (Fx1 + Fx2);
  Fy_total ← setitem2 (snd F) i j (Fy1 + Fy2);
  Some (Fx_total, Fy_total).

(** Lines 89-98 for an [n] by [n] grid. *)
Definition force_loop (n : nat) (X Y : list (list R))
  : option (list (list R) * list (list R)) :=
  for_in (seq 0 n)
         (fun i => for_in (seq 0 n) (fun j => force_cell X Y (i, j)))
         (zeros_like X, zeros_like Y).

(** [Fx_total] and [Fy_total] after the loop. *)
Definition Fx_Fy_total : option (list (list R) * list (list R)) :=
  force_loop grid_pts X Y.

Definition magnitude (Fx_total Fy_total : list (list R)) : list (list R) :=
  broadcast2 norm2 Fx_total Fy_total.

(** The same field written as a map over the grid points: what one cell
    receives, and the two arrays of all cells. *)
Definition total_force (xq yq : R) : R * R :=
  let '(Fx1, Fy1) := gravitational_force M_earth m_cmd 0 0 xq yq in
  let '(Fx2, Fy2) := gravitational_force M_moon m_cmd x_moon y_moon xq yq in
  (Fx1 + Fx2, Fy1 + Fy2).

Definition force_map (X Y : list (list R)) : list (list R) * list (list R) :=
  (broadcast2 (fun xq yq => fst (total_force xq yq)) X Y,
   broadcast2 (fun xq yq => snd (total_force xq yq)) X Y).

(** The loop's index order, and the shape of a square array. *)
Definition row_major (n : nat) : list (nat * nat) :=
  list_prod (seq 0 n) (seq 0 n).

Definition shape (n : nat) (A : list (list R)) : Prop :=
  length A = n /\ Forall (fun row => length row = n) A.

(** ** The 1-D profile (lines 26-27)

    [gravitational_potential] called with the array [x_vals] and the scalar
    [0], then [np.abs], both entry-wise. *)

Definition x_vals : list R := linspace R_earth (1.5 * d_earth_moon) 1000.

Definition phi_vals : list R :=
  map (fun xv => Rabs (gravitational_potential M_earth 0 0 xv 0)) x_vals.

(** The physics functions are unfolded on request only. *)
Arguments gravitational_potential : simpl never.
Arguments gravitational_force : simpl never.
Arguments delta_v : simpl never.
Arguments norm2 : simpl never.
Arguments total_force : simpl never.

(** Reduce a [x ← Some a; k] step of the option monad. *)
Ltac bind_step := cbn [mbind option_bind].

(** ** Arrays: reading, writing, extensionality *)

Section Arrays.
Local Open Scope nat_scope.
Implicit Types (A B : list (list R)) (i j n : nat).

Lemma getitem2_broadcast2 (f : R -> R -> R) A B i j :
  getitem2 (broadcast2 f A B) i j
  = (a ← getitem2 A i j; b ← getitem2 B i j; Some (f a b)).
Proof.
  unfold getitem2, broadcast2. rewrite lookup_zip_with.
  destruct (A !! i) as [ra |]; [| reflexivity]. cbn.
  destruct (B !! i) as [rb |]; cbn.
  - apply lookup_zip_with.
  - now destruct (ra !! j).
Qed.

Lemma shape_lookup n A i :
  shape n A -> i < n -> exists row, A !! i = Some row /\ length row = n.
Proof.
  intros [Hlen Hrows] Hi.
  destruct (lookup_lt_is_Some_2 A i) as [row Hrow]; [lia |].
  exists row. split; [exact Hrow |].
  exact (Forall_lookup_1 _ _ _ _ Hrows Hrow).
Qed.

Lemma shape_getitem2 n A i j :
  shape n A -> i < n -> j < n -> is_Some (getitem2 A i j).
Proof.
  intros HA Hi Hj. destruct (shape_lookup n A i HA Hi) as (row & Hrow & Hlen).
  unfold getitem2. rewrite Hrow. cbn. apply lookup_lt_is_Some_2. lia.
Qed.

Lemma shape_zeros_like n A : shape n A -> shape n (zeros_like A).
Proof.
  intros [Hlen Hrows]. unfold zeros_like. split.
  - now rewrite length_map.
  - apply Forall_map. eapply Forall_impl; [| exact Hrows].
    intros row Hrow. cbn. now rewrite length_map.
Qed.

Lemma shape_broadcast2 (f : R -> R -> R) n A B :
  shape n A -> shape n B -> shape n (broadcast2 f A B).
Proof.
  intros HA HB. unfold broadcast2. split.
  - rewrite length_zip_with. destruct HA, HB. lia.
  - apply Forall_lookup. intros i row Hrow.
    apply lookup_zip_with_Some in Hrow as (ra & rb & -> & Hra & Hrb).
    rewrite length_zip_with.
    destruct HA as [_ HA], HB as [_ HB].
    rewrite (Forall_lookup_1 _ _ _ _ HA Hra), (Forall_lookup_1 _ _ _ _ HB Hrb).
    lia.
Qed.

(** Two arrays of one shape with the same entries are the same array. *)
Lemma array2_ext n A B :
  shape n A -> shape n B ->
  (forall i j, i < n -> j < n -> getitem2 A i j = getitem2 B i j) ->
  A = B.
Proof.
  intros HA HB Hget. apply list_eq. intros i.
  destruct (decide (i < n)) as [Hi | Hi].
  - destruct (shape_lookup n A i HA Hi) as (ra & Hra & Hla).
    destruct (shape_lookup n B i HB Hi) as (rb & Hrb & Hlb).
    rewrite Hra, Hrb. f_equal. apply list_eq. intros j.
    destruct (decide (j < n)) as [Hj | Hj].
    + specialize (Hget i j Hi Hj). unfold getitem2 in Hget.
      now rewrite Hra, Hrb in Hget.
    + rewrite !(proj2 (lookup_ge_None _ _)) by lia. reflexivity.
  - destruct HA as [HA _], HB as [HB _].
    rewrite !(proj2 (lookup_ge_None _ _)) by lia. reflexivity.
Qed.

(** An in-range write succeeds, keeps the shape and changes one entry. *)
Lemma setitem2_spec n A i j (v : R) :
  shape n A -> i < n -> j < n ->
  exists A', setitem2 A i j v = Some A'
    /\ shape n A'
    /\ forall i' j', getitem2 A' i' j'
         = if decide ((i, j) = (i', j')) then Some v else getitem2 A i' j'.
Proof.
  intros HA Hi Hj. destruct (shape_lookup n A i HA Hi) as (row & Hrow & Hlen).
  exists (<[i := <[j := v]> row]> A). split; [| split].
  - unfold setitem2. rewrite Hrow. cbn. now rewrite decide_True by lia.
  - destruct HA as [HlenA Hrows]. split.
    + now rewrite length_insert.
    + apply Forall_insert; [exact Hrows |]. now rewrite length_insert.
  - intros i' j'. unfold getitem2. destruct HA as [HlenA _].
    destruct (decide (i = i')) as [<- | Hne].
    + rewrite list_lookup_insert_eq by lia. cbn.
      destruct (decide (j = j')) as [<- | Hnej].
      * rewrite decide_True by reflexivity.
        apply list_lookup_insert_eq. lia.
      * rewrite decide_False by congruence.
        rewrite list_lookup_insert_ne by exact Hnej. now rewrite Hrow.
    + rewrite decide_False by congruence.
      now rewrite list_lookup_insert_ne by exact Hne.
Qed.

(** Out of range, a write raises. *)
Lemma setitem2_out_of_range n A i j (v : R) :
  shape n A -> n <= i \/ n <= j -> setitem2 A i j v = None.
Proof.
  intros HA Hij. unfold setitem2.
  destruct (A !! i) as [row |] eqn:Hrow; [| reflexivity]. cbn.
  destruct HA as [HlenA Hrows].
  pose proof (Forall_lookup_1 _ _ _ _ Hrows Hrow) as Hlen. cbn in Hlen.
  apply lookup_lt_Some in Hrow.
  rewrite decide_False by lia. reflexivity.
Qed.

Lemma for_in_app {C S : Type} (l1 l2 : list C) (body : C -> S -> option S) s :
  for_in (l1 ++ l2) body s = (s' ← for_in l1 body s; for_in l2 body s').
Proof.
  revert s. induction l1 as [| a l1 IH]; intros s; cbn; [reflexivity |].
  destruct (body a s) as [s1 |]; cbn; [apply IH | reflexivity].
Qed.

Lemma for_in_map {C D S : Type} (h : C -> D) (l : list C)
    (body : D -> S -> option S) s :
  for_in (map h l) body s = for_in l (fun a => body (h a)) s.
Proof.
  revert s. induction l as [| a l IH]; intros s; cbn; [reflexivity |].
  destruct (body (h a) s); cbn; [apply IH | reflexivity].
Qed.

(** Two nested [for] loops run the body over the product of their ranges,
    first index slowest. *)
Lemma for_in_nested {S : Type} (l1 l2 : list nat)
    (body : nat * nat -> S -> option S) s :
  for_in l1 (fun i => for_in l2 (fun j => body (i, j))) s
  = for_in (list_prod l1 l2) body s.
Proof.
  revert s. induction l1 as [| i l1 IH]; intros s; cbn; [reflexivity |].
  rewrite for_in_app, for_in_map.
  destruct (for_in l2 (fun j => body (i, j)) s); cbn; [apply IH | reflexivity].
Qed.

Lemma elem_of_row_major n i j : (i, j) ∈ row_major n <-> i < n /\ j < n.
Proof.
  unfold row_major. rewrite list_elem_of_In, in_prod_iff, !in_seq. lia.
Qed.
End Arrays.

(** ** The sampling grid *)

Section Grid.
Local Open Scope nat_scope.
Implicit Types (A B : list (list R)) (i j n : nat).

Lemma length_linspace (a b : R) n : length (linspace a b n) = n.
Proof. unfold linspace. now rewrite length_map, length_seq. Qed.

Lemma shape_meshgrid n (xs ys : list R) :
  length xs = n -> length ys = n ->
  shape n (fst (meshgrid xs ys)) /\ shape n (snd (meshgrid xs ys)).
Proof.
  intros Hx Hy. unfold meshgrid, shape. cbn [fst snd].
  rewrite !length_map. repeat split; try exact Hy.
  - apply Forall_map, Forall_forall. intros ? _. exact Hx.
  - apply Forall_map, Forall_forall. intros ? _. cbn. now rewrite length_map.
Qed.

Lemma shape_X : shape grid_pts X.
Proof. apply shape_meshgrid; apply length_linspace. Qed.

Lemma shape_Y : shape grid_pts Y.
Proof. apply shape_meshgrid; apply length_linspace. Qed.

(** [X[i, j] = x[j]] and [Y[i, j] = y[i]]. *)
Lemma getitem2_meshgrid (xs ys : list R) i j :
  i < length ys -> j < length xs ->
  getitem2 (fst (meshgrid xs ys)) i j = xs !! j
  /\ getitem2 (snd (meshgrid xs ys)) i j = ys !! i.
Proof.
  intros Hi Hj. unfold getitem2, meshgrid. cbn [fst snd].
  destruct (lookup_lt_is_Some_2 ys i Hi) as [yi Hyi].
  destruct (lookup_lt_is_Some_2 xs j Hj) as [xj Hxj].
  rewrite !list_lookup_fmap, Hyi. cbn.
  rewrite list_lookup_fmap, Hxj. now split.
Qed.
End Grid.

(** ** Basic facts about the clamps *)

Lemma dist_euc_pow2 x y xM yM :
  dist_euc x y xM yM = sqrt ((x - xM) ^ 2 + (y - yM) ^ 2).
Proof. unfold dist_euc. now rewrite !Rsqr_pow2. Qed.

Lemma dist_euc_axis a : 0 <= a -> dist_euc a 0 0 0 = a.
Proof.
  intros Ha. unfold dist_euc.
  rewrite !Rminus_0_r, Rsqr_0, Rplus_0_r. now apply sqrt_Rsqr.
Qed.

Lemma sum_sq_nonneg a b : 0 <= a ^ 2 + b ^ 2.
Proof. pose proof (pow2_ge_0 a). pose proof (pow2_ge_0 b). lra. Qed.

Lemma sqrt_1e6 : sqrt 1e6 = 1e3.
Proof. replace 1e6 with (1e3 * 1e3) by lra. apply sqrt_square. lra. Qed.

Lemma clamp_r_ge r : 1e3 <= Rmax r 1e3.
Proof. apply Rmax_r. Qed.

Lemma clamp_r2_ge r2 : 1e6 <= Rmax r2 1e6.
Proof. apply Rmax_r. Qed.

Lemma G_pos : 0 < G.
Proof. unfold G. lra. Qed.

Lemma gravitational_potential_dist M xM yM x y :
  gravitational_potential M xM yM x y
  = - G * M / Rmax (dist_euc x y xM yM) 1e3.
Proof. unfold gravitational_potential. now rewrite dist_euc_pow2. Qed.

(** ** Potential *)

(** C1. For every mass [M] at [(xM, yM)] and every query point [(x, y)],
    [gravitational_potential] returns [-G*M/r] where [r] is the Euclidean
    distance from the query point to the mass floored at 1000 m; the divisor
    is at least 1000, hence never zero, and the result is bounded by
    [G*|M|/1000] (finite). *)
Theorem gravitational_potential_law M xM yM x y :
  let r := Rmax (dist_euc x y xM yM) 1e3 in
  gravitational_potential M xM yM x y = - (G * M / r)
  /\ 1e3 <= r
  /\ r <> 0
  /\ Rabs (gravitational_potential M xM yM x y) <= G * Rabs M / 1e3.
Proof.
  intros r. pose proof (clamp_r_ge (dist_euc x y xM yM)) as Hr. fold r in Hr.
  assert (Hr0 : 0 < r) by lra.
  assert (Heq : gravitational_potential M xM yM x y = - (G * M / r)).
  { rewrite gravitational_potential_dist. fold r. field. lra. }
  repeat split; [exact Heq | exact Hr | lra |].
  rewrite Heq, Rabs_Ropp. unfold Rdiv.
  rewrite !Rabs_mult, (Rabs_pos_eq G) by (left; apply G_pos).
  rewrite (Rabs_pos_eq (/ r)) by (left; now apply Rinv_0_lt_compat).
  apply Rmult_le_compat_l.
  - apply Rmult_le_pos; [left; apply G_pos | apply Rabs_pos].
  - apply Rinv_le_contravar; lra.
Qed.

Lemma gravitational_potential_far M xM yM x y :
  1e3 <= dist_euc x y xM yM ->
  gravitational_potential M xM yM x y = - (G * M / dist_euc x y xM yM).
Proof.
  intros Hd. rewrite gravitational_potential_dist, Rmax_left by exact Hd.
  field. lra.
Qed.

Lemma gravitational_potential_near M xM yM x y :
  dist_euc x y xM yM <= 1e3 ->
  gravitational_potential M xM yM x y = - G * M / 1e3.
Proof.
  intros Hd. now rewrite gravitational_potential_dist, Rmax_right by exact Hd.
Qed.

(** C7. For a single positive mass, of two query points at distance at least
    1000 m the farther one has the strictly smaller [|Phi|] (and the larger,
    still negative, [Phi]); and [Phi] tends to 0 as the distance grows. *)
Theorem potential_monotone_decay M xM yM :
  0 < M ->
  (forall xa ya xb yb,
      1e3 <= dist_euc xa ya xM yM ->
      dist_euc xa ya xM yM < dist_euc xb yb xM yM ->
      Rabs (gravitational_potential M xM yM xb yb)
        < Rabs (gravitational_potential M xM yM xa ya)
      /\ gravitational_potential M xM yM xa ya
         < gravitational_potential M xM yM xb yb < 0)
  /\ (forall eps, 0 < eps ->
      exists R0, forall x y,
          R0 < dist_euc x y xM yM ->
          Rabs (gravitational_potential M xM yM x y) < eps).
Proof.
  intros HM. pose proof G_pos as HG.
  assert (HGM : 0 < G * M) by now apply Rmult_lt_0_compat.
  split.
  - intros xa ya xb yb Ha Hab.
    set (ra := dist_euc xa ya xM yM) in *. set (rb := dist_euc xb yb xM yM) in *.
    rewrite !gravitational_potential_far by (fold ra rb; lra). fold ra rb.
    assert (Hinv : / rb < / ra) by (apply Rinv_lt_contravar; nra).
    assert (Hrb : 0 < / rb) by (apply Rinv_0_lt_compat; lra).
    assert (Hlt : G * M / rb < G * M / ra)
      by (unfold Rdiv; now apply Rmult_lt_compat_l).
    assert (Hpos : 0 < G * M / rb)
      by (unfold Rdiv; now apply Rmult_lt_0_compat).
    rewrite !Rabs_Ropp, !Rabs_pos_eq by lra. lra.
  - intros eps Heps. exists (Rmax 1e3 (G * M / eps)). intros x y Hd.
    set (r := dist_euc x y xM yM) in *.
    assert (H1 : 1e3 < r) by (eapply Rle_lt_trans; [apply Rmax_l | exact Hd]).
    assert (H2 : G * M / eps < r)
      by (eapply Rle_lt_trans; [apply Rmax_r | exact Hd]).
    rewrite gravitational_potential_far by (fold r; lra). fold r.
    assert (Hq : 0 < G * M / r)
      by (unfold Rdiv; apply Rmult_lt_0_compat; [lra | apply Rinv_0_lt_compat; lra]).
    rewrite Rabs_Ropp, Rabs_pos_eq by lra.
    apply (Rmult_lt_reg_r r); [lra |].
    replace (G * M / r * r) with (G * M) by (field; lra).
    apply (Rmult_lt_reg_r (/ eps)); [now apply Rinv_0_lt_compat |].
    replace (eps * r * / eps) with r by (field; lra). exact H2.
Qed.

(** Earth at the origin: 3000 km is farther than 2000 km. *)
Lemma potential_monotone_decay_witness :
  Rabs (gravitational_potential M_earth 0 0 3e6 0)
    < Rabs (gravitational_potential M_earth 0 0 2e6 0).
Proof.
  assert (HM : 0 < M_earth) by (unfold M_earth; lra).
  destruct (potential_monotone_decay M_earth 0 0 HM) as [Hmono _].
  apply (Hmono 2e6 0 3e6 0); rewrite !dist_euc_axis; lra.
Defined.

(** ** Superposition of the potential *)

Lemma getitem2_potential_sum Ma xa ya Mb xb yb (X Y : list (list R)) (i j : nat) :
  getitem2 (potential_sum Ma xa ya Mb xb yb X Y) i j
  = (xq ← getitem2 X i j; yq ← getitem2 Y i j;
     Some (gravitational_potential Ma xa ya xq yq
           + gravitational_potential Mb xb yb xq yq)).
Proof.
  unfold potential_sum, gravitational_potential_grid.
  rewrite !getitem2_broadcast2.
  destruct (getitem2 X i j); [| reflexivity]. cbn.
  destruct (getitem2 Y i j); reflexivity.
Qed.

(** C5. At every grid point the total potential of two sources is exactly
    the sum of [gravitational_potential] evaluated for each source alone at
    that point; in particular, every entry of [phi_total] on the 500 by 500
    grid is the Earth's potential plus the Moon's. *)
Theorem potential_superposition :
  (forall Ma xa ya Mb xb yb (X Y : list (list R)) (i j : nat),
      getitem2 (potential_sum Ma xa ya Mb xb yb X Y) i j
      = (xq ← getitem2 X i j; yq ← getitem2 Y i j;
         Some (gravitational_potential Ma xa ya xq yq
               + gravitational_potential Mb xb yb xq yq)))
  /\ (forall i j : nat, (i < grid_pts)%nat -> (j < grid_pts)%nat ->
      exists xq yq,
        getitem2 X i j = Some xq /\ getitem2 Y i j = Some yq
        /\ getitem2 phi_total i j
           = Some (gravitational_potential M_earth 0 0 xq yq
                   + gravitational_potential M_moon x_moon y_moon xq yq)).
Proof.
  split; [exact getitem2_potential_sum |].
  intros i j Hi Hj.
  destruct (shape_getitem2 _ _ i j shape_X Hi Hj) as [xq Hxq].
  destruct (shape_getitem2 _ _ i j shape_Y Hi Hj) as [yq Hyq].
  exists xq, yq. repeat split; [exact Hxq | exact Hyq |].
  unfold phi_total. now rewrite getitem2_potential_sum, Hxq, Hyq.
Qed.

(** ** Force *)

(** C10. At the source's own position ([dx = dy = 0]) the force is exactly
    [(0, 0)]: the clamp acts on [r2] only, not on the displacement. *)
Theorem gravitational_force_at_source M1 m2 x1 y1 :
  gravitational_force M1 m2 x1 y1 x1 y1 = (0, 0).
Proof.
  unfold gravitational_force. f_equal; unfold Rdiv; rewrite Rminus_diag; ring.
Qed.

Section Force.
Variables M1 m2 x1 y1 x2 y2 : R.

Let dx := x2 - x1.
Let dy := y2 - y1.
Let d2 := dx ^ 2 + dy ^ 2.
Let c2 := Rmax d2 1e6.

Lemma force_d2_nonneg : 0 <= d2.
Proof. apply sum_sq_nonneg. Qed.

Lemma force_c2_pos : 0 < c2.
Proof. pose proof (clamp_r2_ge d2). fold c2 in H. lra. Qed.

Lemma force_r_ge : 1e3 <= sqrt c2.
Proof.
  rewrite <- sqrt_1e6. apply sqrt_le_1_alt. apply clamp_r2_ge.
Qed.

Lemma force_sqr_r : sqrt c2 * sqrt c2 = c2.
Proof. apply sqrt_sqrt. left. apply force_c2_pos. Qed.

(** The components, with the clamped quantities named. *)
Lemma gravitational_force_components :
  gravitational_force M1 m2 x1 y1 x2 y2
  = (- G * M1 * m2 / c2 * dx / sqrt c2, - G * M1 * m2 / c2 * dy / sqrt c2).
Proof. reflexivity. Qed.

(** The magnitude of the returned vector, for any sign of the masses. *)
Lemma gravitational_force_norm :
  norm2 (fst (gravitational_force M1 m2 x1 y1 x2 y2))
        (snd (gravitational_force M1 m2 x1 y1 x2 y2))
  = G * Rabs (M1 * m2) / c2 * (sqrt d2 / sqrt c2).
Proof.
  rewrite gravitational_force_components. cbn [fst snd]. unfold norm2.
  pose proof force_c2_pos as Hc. pose proof force_r_ge as Hr.
  pose proof force_sqr_r as Hrr. pose proof force_d2_nonneg as Hd.
  pose proof G_pos as HG.
  set (r := sqrt c2) in *.
  set (k := G * Rabs (M1 * m2) / c2 / r).
  assert (Hk : 0 <= k).
  { assert (Ha : 0 <= G * Rabs (M1 * m2))
      by (apply Rmult_le_pos; [lra | apply Rabs_pos]).
    unfold k, Rdiv.
    apply Rmult_le_pos; [apply Rmult_le_pos; [exact Ha |] |];
      left; apply Rinv_0_lt_compat; lra. }
  replace ((- G * M1 * m2 / c2 * dx / r) ^ 2 + (- G * M1 * m2 / c2 * dy / r) ^ 2)
    with ((k * k) * d2).
  - rewrite sqrt_mult by nra. rewrite sqrt_square by exact Hk.
    unfold k. field. lra.
  - unfold k, d2.
    replace (Rabs (M1 * m2)) with (sqrt ((M1 * m2) ^ 2)).
    2:{ rewrite <- Rsqr_pow2. apply sqrt_Rsqr_abs. }
    assert (Hs : sqrt ((M1 * m2) ^ 2) * sqrt ((M1 * m2) ^ 2) = (M1 * m2) ^ 2)
      by (apply sqrt_sqrt; nra).
    set (s := sqrt ((M1 * m2) ^ 2)) in *.
    transitivity (G * G * (s * s) * (dx ^ 2 + dy ^ 2) / (c2 * c2) / (r * r)).
    + field. lra.
    + rewrite Hs. field. lra.
Qed.

(** The dot product with the displacement from the query point to the
    source. *)
Lemma gravitational_force_dot :
  fst (gravitational_force M1 m2 x1 y1 x2 y2) * (x1 - x2)
  + snd (gravitational_force M1 m2 x1 y1 x2 y2) * (y1 - y2)
  = G * (M1 * m2) / c2 * (d2 / sqrt c2).
Proof.
  rewrite gravitational_force_components. cbn [fst snd].
  pose proof force_c2_pos. pose proof force_r_ge.
  unfold d2, dx, dy. field. lra.
Qed.
End Force.

(** Every entry of the [magnitude] array is non-negative. *)
Lemma magnitude_nonneg (A B : list (list R)) (i j : nat) v :
  getitem2 (magnitude A B) i j = Some v -> 0 <= v.
Proof.
  unfold magnitude. rewrite getitem2_broadcast2.
  destruct (getitem2 A i j) as [a |]; [| discriminate]. bind_step.
  destruct (getitem2 B i j) as [b |]; [| discriminate]. bind_step.
  intros [= <-]. apply sqrt_pos.
Qed.

(** C2 (as amended). For non-negative masses: at squared distance at least
    1e6 m^2 the returned vector has magnitude [G*M1*m2/r2]; inside the clamp
    its magnitude is the floor value [G*M1*m2/1e6] scaled by [r/1000]; in both
    cases it has a non-negative dot product with the displacement from the
    query point to the source, and its magnitude, like every entry of the
    [magnitude] array, is non-negative. *)
Theorem gravitational_force_law M1 m2 x1 y1 x2 y2 :
  0 <= M1 -> 0 <= m2 ->
  let F := gravitational_force M1 m2 x1 y1 x2 y2 in
  let d2 := (x2 - x1) ^ 2 + (y2 - y1) ^ 2 in
  (1e6 <= d2 -> norm2 (fst F) (snd F) = G * M1 * m2 / d2)
  /\ (d2 <= 1e6 -> norm2 (fst F) (snd F) = G * M1 * m2 / 1e6 * (sqrt d2 / 1e3))
  /\ 0 <= fst F * (x1 - x2) + snd F * (y1 - y2)
  /\ 0 <= norm2 (fst F) (snd F)
  /\ (forall (Fx_total Fy_total : list (list R)) (i j : nat) v,
      getitem2 (magnitude Fx_total Fy_total) i j = Some v -> 0 <= v).
Proof.
  intros HM1 Hm2 F d2.
  assert (HM : 0 <= M1 * m2) by now apply Rmult_le_pos.
  assert (Hd : 0 <= d2) by apply sum_sq_nonneg.
  pose proof G_pos as HG.
  pose proof (gravitational_force_norm M1 m2 x1 y1 x2 y2) as Hn.
  pose proof (gravitational_force_dot M1 m2 x1 y1 x2 y2) as Hdot.
  cbv zeta in Hn, Hdot. fold F d2 in Hn, Hdot.
  rewrite Rabs_pos_eq in Hn by exact HM.
  repeat split.
  - intros Hfar. rewrite Hn, Rmax_left by exact Hfar.
    assert (0 < sqrt d2) by (apply sqrt_lt_R0; lra). field. split; lra.
  - intros Hnear. rewrite Hn, Rmax_right, sqrt_1e6 by exact Hnear. field.
  - rewrite Hdot.
    pose proof (force_c2_pos x1 y1 x2 y2) as Hc.
    pose proof (force_r_ge x1 y1 x2 y2) as Hr.
    cbv zeta in Hc, Hr. fold d2 in Hc, Hr.
    apply Rmult_le_pos.
    + apply Rmult_le_pos; [nra | left; apply Rinv_0_lt_compat; lra].
    + apply Rmult_le_pos; [lra | left; apply Rinv_0_lt_compat; lra].
  - apply sqrt_pos.
  - intros. eapply magnitude_nonneg. eassumption.
Qed.

(** Unit masses two kilometres apart on the x axis. *)
Lemma gravitational_force_law_witness :
  norm2 (fst (gravitational_force 1 1 0 0 2e3 0))
        (snd (gravitational_force 1 1 0 0 2e3 0))
  = G * 1 * 1 / ((2e3 - 0) ^ 2 + (0 - 0) ^ 2).
Proof.
  assert (H1 : 0 <= 1) by lra.
  destruct (gravitational_force_law 1 1 0 0 2e3 0 H1 H1) as [Hfar _].
  apply Hfar. lra.
Defined.

(** C2, counterexample. Unit masses, source at the origin, query point
    [(500, 0)]: distinct from the source, yet the returned magnitude is
    [G/2e6], half of [G*M1*m2/r2] with [r2] floored at 1e6. *)
Lemma gravitational_force_magnitude_cex :
  (500, 0) <> (0, 0)
  /\ gravitational_force 1 1 0 0 500 0 = (- G / 2e6, 0)
  /\ norm2 (- G / 2e6) 0 = G / 2e6
  /\ G * 1 * 1 / Rmax ((500 - 0) ^ 2 + (0 - 0) ^ 2) 1e6 = G / 1e6
  /\ G / 2e6 < G / 1e6.
Proof.
  pose proof G_pos as HG.
  assert (Hc : Rmax ((500 - 0) ^ 2 + (0 - 0) ^ 2) 1e6 = 1e6)
    by (apply Rmax_right; lra).
  repeat split.
  - intros Heq. injection Heq. lra.
  - unfold gravitational_force. rewrite Hc, sqrt_1e6. f_equal; field.
  - unfold norm2. replace ((- G / 2e6) ^ 2 + 0 ^ 2) with (Rsqr (G / 2e6))
      by (unfold Rsqr; field).
    apply sqrt_Rsqr. lra.
  - rewrite Hc. field.
  - lra.
Qed.

Lemma dist_euc_lt_1e3 x y xs ys :
  dist_euc x y xs ys < 1e3 -> (x - xs) ^ 2 + (y - ys) ^ 2 <= 1e6.
Proof.
  intros Hd. rewrite dist_euc_pow2 in Hd.
  destruct (Rle_or_lt ((x - xs) ^ 2 + (y - ys) ^ 2) 1e6) as [Hle | Hgt]; [exact Hle |].
  assert (Hs : sqrt 1e6 < sqrt ((x - xs) ^ 2 + (y - ys) ^ 2))
    by (apply sqrt_lt_1_alt; lra).
  rewrite sqrt_1e6 in Hs. lra.
Qed.

Lemma dist_euc_eq_1e3 x y xs ys :
  dist_euc x y xs ys = 1e3 -> (x - xs) ^ 2 + (y - ys) ^ 2 = 1e6.
Proof.
  intros Hd. rewrite dist_euc_pow2 in Hd.
  rewrite <- (sqrt_sqrt ((x - xs) ^ 2 + (y - ys) ^ 2)) by apply sum_sq_nonneg.
  rewrite Hd. lra.
Qed.

(** Inside the clamp the force keeps the threshold's coefficient and the
    unclamped displacement. *)
Lemma gravitational_force_near M1 m2 xs ys x y :
  dist_euc x y xs ys < 1e3 ->
  gravitational_force M1 m2 xs ys x y
  = (- G * M1 * m2 / 1e6 * (x - xs) / 1e3, - G * M1 * m2 / 1e6 * (y - ys) / 1e3).
Proof.
  intros Hd. apply dist_euc_lt_1e3 in Hd.
  unfold gravitational_force. now rewrite Rmax_right, sqrt_1e6 by exact Hd.
Qed.

Lemma gravitational_force_norm_near M1 m2 xs ys x y :
  dist_euc x y xs ys < 1e3 ->
  norm2 (fst (gravitational_force M1 m2 xs ys x y))
        (snd (gravitational_force M1 m2 xs ys x y))
  = dist_euc x y xs ys / 1e3 * (G * Rabs (M1 * m2) / 1e6).
Proof.
  intros Hd. apply dist_euc_lt_1e3 in Hd.
  pose proof (gravitational_force_norm M1 m2 xs ys x y) as Hn.
  cbv zeta in Hn. rewrite Hn, (Rmax_right _ _ Hd), sqrt_1e6, dist_euc_pow2.
  field.
Qed.

Lemma gravitational_force_norm_threshold M1 m2 xs ys x y :
  dist_euc x y xs ys = 1e3 ->
  norm2 (fst (gravitational_force M1 m2 xs ys x y))
        (snd (gravitational_force M1 m2 xs ys x y))
  = G * Rabs (M1 * m2) / 1e6.
Proof.
  intros Hd. apply dist_euc_eq_1e3 in Hd.
  pose proof (gravitational_force_norm M1 m2 xs ys x y) as Hn.
  cbv zeta in Hn. rewrite Hn, Hd, Rmax_left, sqrt_1e6 by lra.
  field.
Qed.

(** C4 (as amended). For a query point closer than 1000 m to the source, the
    potential equals its value [-G*M/1000] at the floor threshold; the force
    takes the threshold's coefficient [-G*M1*m2/1e6] but multiplies it by the
    unclamped displacement over 1000, so its magnitude is [r/1000] times the
    magnitude at the threshold.  Both divisors are the floors themselves. *)
Theorem clamp_boundary M M1 m2 xs ys x y :
  dist_euc x y xs ys < 1e3 ->
  gravitational_potential M xs ys x y = - G * M / 1e3
  /\ (forall x' y', dist_euc x' y' xs ys = 1e3 ->
      gravitational_potential M xs ys x y = gravitational_potential M xs ys x' y')
  /\ gravitational_force M1 m2 xs ys x y
     = (- G * M1 * m2 / 1e6 * (x - xs) / 1e3, - G * M1 * m2 / 1e6 * (y - ys) / 1e3)
  /\ (forall x' y', dist_euc x' y' xs ys = 1e3 ->
      norm2 (fst (gravitational_force M1 m2 xs ys x y))
            (snd (gravitational_force M1 m2 xs ys x y))
      = dist_euc x y xs ys / 1e3
        * norm2 (fst (gravitational_force M1 m2 xs ys x' y'))
                (snd (gravitational_force M1 m2 xs ys x' y'))).
Proof.
  intros Hd. split; [| split; [| split]].
  - apply gravitational_potential_near. lra.
  - intros x' y' Hd'. rewrite !gravitational_potential_near by lra. reflexivity.
  - now apply gravitational_force_near.
  - intros x' y' Hd'.
    now rewrite gravitational_force_norm_near, gravitational_force_norm_threshold.
Qed.

(** A point 500 m from a unit source, compared with one at 1000 m. *)
Lemma clamp_boundary_witness :
  gravitational_potential 1 0 0 500 0 = gravitational_potential 1 0 0 1e3 0.
Proof.
  assert (H : dist_euc 500 0 0 0 < 1e3) by (rewrite dist_euc_axis; lra).
  destruct (clamp_boundary 1 1 1 0 0 500 0 H) as (_ & Hsame & _).
  apply Hsame. apply dist_euc_axis. lra.
Defined.

(** C4, counterexample. Unit masses, source at the origin, [(500, 0)] is
    inside the clamp; the force there is [(-G/2e6, 0)], while at the threshold
    in the same direction it is [(-G/1e6, 0)], and no point at the threshold
    distance has the force of [(500, 0)]. *)
Lemma clamp_boundary_force_cex :
  dist_euc 500 0 0 0 < 1e3
  /\ gravitational_force 1 1 0 0 500 0 = (- G / 2e6, 0)
  /\ gravitational_force 1 1 0 0 1e3 0 = (- G / 1e6, 0)
  /\ (forall x' y', dist_euc x' y' 0 0 = 1e3 ->
      gravitational_force 1 1 0 0 500 0 <> gravitational_force 1 1 0 0 x' y').
Proof.
  pose proof G_pos as HG.
  assert (Hin : dist_euc 500 0 0 0 < 1e3) by (rewrite dist_euc_axis; lra).
  assert (H500 : gravitational_force 1 1 0 0 500 0 = (- G / 2e6, 0)).
  { rewrite gravitational_force_near by exact Hin. f_equal; field. }
  repeat split; [exact Hin | exact H500 | |].
  - unfold gravitational_force. rewrite Rmax_right, sqrt_1e6 by lra.
    f_equal; field.
  - intros x' y' Hd' Heq.
    pose proof (gravitational_force_norm_near 1 1 0 0 500 0 Hin) as Hnear.
    pose proof (gravitational_force_norm_threshold 1 1 0 0 x' y' Hd') as Hthr.
    rewrite Heq, Hthr, dist_euc_axis, Rmult_1_r, Rabs_R1 in Hnear by lra.
    lra.
Qed.

(** ** The force field: loop and map *)

Section ForceLoop.
Local Open Scope nat_scope.
Variable n : nat.
Variables X Y : list (list R).
Hypothesis shape_X' : shape n X.
Hypothesis shape_Y' : shape n Y.

Lemma shape_force_map :
  shape n (fst (force_map X Y)) /\ shape n (snd (force_map X Y)).
Proof. split; now apply shape_broadcast2. Qed.

(** One entry of the map depends on the grid point of that entry only. *)
Lemma getitem2_force_map i j :
  getitem2 (fst (force_map X Y)) i j
  = (xq ← getitem2 X i j; yq ← getitem2 Y i j; Some (fst (total_force xq yq)))
  /\ getitem2 (snd (force_map X Y)) i j
     = (xq ← getitem2 X i j; yq ← getitem2 Y i j; Some (snd (total_force xq yq))).
Proof. split; apply getitem2_broadcast2. Qed.

(** One pass of the loop body writes the map's entry into cell [(i, j)] of
    both arrays and leaves every other cell as it was. *)
Lemma force_cell_spec i j (F : list (list R) * list (list R)) :
  shape n (fst F) -> shape n (snd F) -> i < n -> j < n ->
  exists F', force_cell X Y (i, j) F = Some F'
    /\ shape n (fst F') /\ shape n (snd F')
    /\ forall i' j',
        getitem2 (fst F') i' j'
        = (if decide ((i, j) = (i', j'))
           then getitem2 (fst (force_map X Y)) i' j'
           else getitem2 (fst F) i' j')
        /\ getitem2 (snd F') i' j'
           = (if decide ((i, j) = (i', j'))
              then getitem2 (snd (force_map X Y)) i' j'
              else getitem2 (snd F) i' j').
Proof.
  intros HF1 HF2 Hi Hj.
  destruct (shape_getitem2 n X i j shape_X' Hi Hj) as [xq Hxq].
  destruct (shape_getitem2 n Y i j shape_Y' Hi Hj) as [yq Hyq].
  destruct (getitem2_force_map i j) as [Hm1 Hm2].
  rewrite Hxq, Hyq in Hm1, Hm2. cbn [mbind option_bind] in Hm1, Hm2.
  unfold total_force in Hm1, Hm2.
  unfold force_cell. rewrite Hxq, Hyq. bind_step.
  destruct (gravitational_force M_earth m_cmd 0 0 xq yq) as [Fx1 Fy1].
  destruct (gravitational_force M_moon m_cmd x_moon y_moon xq yq) as [Fx2 Fy2].
  cbn [fst snd] in Hm1, Hm2.
  destruct (setitem2_spec n (fst F) i j (Fx1 + Fx2)%R HF1 Hi Hj)
    as (A1 & HA1 & HsA1 & HgA1).
  destruct (setitem2_spec n (snd F) i j (Fy1 + Fy2)%R HF2 Hi Hj)
    as (A2 & HA2 & HsA2 & HgA2).
  exists (A1, A2). rewrite HA1. bind_step. rewrite HA2. bind_step.
  split; [reflexivity |]. split; [exact HsA1 |]. split; [exact HsA2 |].
  intros i' j'. cbn [fst snd]. rewrite HgA1, HgA2.
  destruct (decide ((i, j) = (i', j'))) as [Heq | _]; [| now split].
  injection Heq as <- <-. now rewrite Hm1, Hm2.
Qed.

(** Running the body over any list of in-range cells, in the order of the
    list, succeeds; the visited cells hold the map's entries and the others
    are untouched. *)
Lemma for_in_force_cells (order : list (nat * nat)) :
  forall F : list (list R) * list (list R),
    shape n (fst F) -> shape n (snd F) ->
    (forall i j, (i, j) ∈ order -> i < n /\ j < n) ->
    exists F', for_in order (force_cell X Y) F = Some F'
      /\ shape n (fst F') /\ shape n (snd F')
      /\ forall i' j',
          getitem2 (fst F') i' j'
          = (if decide ((i', j') ∈ order)
             then getitem2 (fst (force_map X Y)) i' j'
             else getitem2 (fst F) i' j')
          /\ getitem2 (snd F') i' j'
             = (if decide ((i', j') ∈ order)
                then getitem2 (snd (force_map X Y)) i' j'
                else getitem2 (snd F) i' j').
Proof.
  induction order as [| [i j] order IH]; intros F HF1 HF2 Hin.
  - exists F. cbn [for_in].
    split; [reflexivity |]. split; [exact HF1 |]. split; [exact HF2 |].
    intros i' j'. rewrite !decide_False by apply not_elem_of_nil. now split.
  - destruct (Hin i j) as [Hi Hj]; [left |].
    destruct (force_cell_spec i j F HF1 HF2 Hi Hj)
      as (F1 & Hcell & HsF1 & HsF1' & HgF1).
    destruct (IH F1 HsF1 HsF1') as (F' & Hrest & HsF' & HsF'' & HgF').
    { intros i' j' Hmem. apply Hin. now right. }
    exists F'. cbn [for_in]. rewrite Hcell. bind_step.
    split; [exact Hrest |]. split; [exact HsF' |]. split; [exact HsF'' |].
    intros i' j'.
    destruct (HgF' i' j') as [Hg1 Hg2]. destruct (HgF1 i' j') as [Hc1 Hc2].
    rewrite Hg1, Hg2, Hc1, Hc2.
    destruct (decide ((i', j') ∈ order)) as [Hmem | Hnmem].
    + rewrite !decide_True by now right. now split.
    + destruct (decide ((i, j) = (i', j'))) as [Heq | Hne].
      * rewrite !decide_True by (rewrite Heq; left). now split.
      * assert (Hnew : (i', j') ∉ (i, j) :: order)
          by (rewrite elem_of_cons; intros [Heq | Hmem]; congruence).
        rewrite !decide_False by exact Hnew. now split.
Qed.

(** Visiting every cell once, in any order, produces the map. *)
Lemma for_in_any_order (order : list (nat * nat)) :
  order ≡ₚ row_major n ->
  for_in order (force_cell X Y) (zeros_like X, zeros_like Y)
  = Some (force_map X Y).
Proof.
  intros Hperm.
  destruct (for_in_force_cells order (zeros_like X, zeros_like Y))
    as (F' & Hrun & HsF1 & HsF2 & Hget).
  - now apply shape_zeros_like.
  - now apply shape_zeros_like.
  - intros i j Hmem. apply elem_of_row_major. now rewrite <- Hperm.
  - rewrite Hrun. f_equal. destruct shape_force_map as [Hm1 Hm2].
    assert (Hall : forall i j, i < n -> j < n -> (i, j) ∈ order)
      by (intros i j Hi Hj; rewrite Hperm; now apply elem_of_row_major).
    destruct F' as [A1 A2]. cbn [fst snd] in *. unfold force_map in *.
    cbn [fst snd] in *. f_equal.
    + apply (array2_ext n); [assumption | assumption |].
      intros i j Hi Hj. destruct (Hget i j) as [Hg _].
      rewrite Hg. now rewrite decide_True by now apply Hall.
    + apply (array2_ext n); [assumption | assumption |].
      intros i j Hi Hj. destruct (Hget i j) as [_ Hg].
      rewrite Hg. now rewrite decide_True by now apply Hall.
Qed.

(** The notebook's nested loop is the row-major instance. *)
Lemma force_loop_row_major :
  force_loop n X Y
  = for_in (row_major n) (force_cell X Y) (zeros_like X, zeros_like Y).
Proof. unfold force_loop, row_major. apply for_in_nested. Qed.
End ForceLoop.

(** The notebook's [Fx_total], [Fy_total] on its 500 by 500 grid. *)
Lemma Fx_Fy_total_is_map : Fx_Fy_total = Some (force_map X Y).
Proof.
  unfold Fx_Fy_total. rewrite force_loop_row_major.
  now apply (for_in_any_order grid_pts X Y shape_X shape_Y).
Qed.

(** C9. On an [n] by [n] grid the nested loop returns the pointwise map of
    the grid; running the loop body over the cells in any other order (any
    permutation of the row-major order) returns the same two arrays; and the
    entry at [(i, j)] is a function of [(X[i,j], Y[i,j])] alone. *)
Theorem force_grid_order_independent (n : nat) (X Y : list (list R))
    (order : list (nat * nat)) :
  shape n X -> shape n Y -> order ≡ₚ row_major n ->
  force_loop n X Y = Some (force_map X Y)
  /\ for_in order (force_cell X Y) (zeros_like X, zeros_like Y)
     = force_loop n X Y
  /\ (forall i j xq yq,
        getitem2 X i j = Some xq -> getitem2 Y i j = Some yq ->
        getitem2 (fst (force_map X Y)) i j = Some (fst (total_force xq yq))
        /\ getitem2 (snd (force_map X Y)) i j = Some (snd (total_force xq yq))).
Proof.
  intros HX HY Hperm.
  assert (Hloop : force_loop n X Y = Some (force_map X Y)).
  { rewrite force_loop_row_major. now apply (for_in_any_order n). }
  split; [exact Hloop |]. split.
  - rewrite Hloop. now apply (for_in_any_order n).
  - intros i j xq yq Hxq Hyq.
    destruct (getitem2_force_map X Y i j) as [H1 H2].
    rewrite H1, H2, Hxq, Hyq. now split.
Qed.

(** A 2 by 2 grid visited backwards. *)
Lemma force_grid_order_independent_witness :
  for_in (rev (row_major 2))
         (force_cell (fst (meshgrid [0; 1e6] [0; 1e6]))
                     (snd (meshgrid [0; 1e6] [0; 1e6])))
         (zeros_like (fst (meshgrid [0; 1e6] [0; 1e6])),
          zeros_like (snd (meshgrid [0; 1e6] [0; 1e6])))
  = force_loop 2 (fst (meshgrid [0; 1e6] [0; 1e6]))
                 (snd (meshgrid [0; 1e6] [0; 1e6])).
Proof.
  assert (HX : shape 2 (fst (meshgrid [0; 1e6] [0; 1e6])))
    by (split; [reflexivity | repeat constructor]).
  assert (HY : shape 2 (snd (meshgrid [0; 1e6] [0; 1e6])))
    by (split; [reflexivity | repeat constructor]).
  assert (Hperm : rev (row_major 2) ≡ₚ row_major 2)
    by (symmetry; apply Permutation_rev).
  destruct (force_grid_order_independent 2 _ _ _ HX HY Hperm) as (_ & Hsame & _).
  exact Hsame.
Defined.

(** ** Rocket velocity and burn time *)

Lemma delta_v_burning t m0 mf mdot ve g :
  m0 - mdot * t > mf ->
  delta_v t m0 mf mdot ve g = ve * ln (m0 / (m0 - mdot * t)) - g * t.
Proof.
  intros Hm. unfold delta_v. rewrite Rmax_left by lra.
  destruct (Rgt_dec (m0 - mdot * t) mf) as [_ | Hn]; [reflexivity | contradiction].
Qed.

Lemma delta_v_burned_out t m0 mf mdot ve g :
  m0 - mdot * t <= mf -> delta_v t m0 mf mdot ve g = 0.
Proof.
  intros Hm. unfold delta_v. rewrite Rmax_right by exact Hm.
  destruct (Rgt_dec mf mf) as [Hgt | _]; [lra | reflexivity].
Qed.

Lemma mass_after_burn_time t m0 mf mdot :
  0 < mdot -> t >= (m0 - mf) / mdot -> m0 - mdot * t <= mf.
Proof.
  intros Hmdot Ht.
  assert (H : mdot * ((m0 - mf) / mdot) <= mdot * t)
    by (apply Rmult_le_compat_l; lra).
  replace (mdot * ((m0 - mf) / mdot)) with (m0 - mf) in H by (field; lra).
  lra.
Qed.

Lemma mass_before_burn_time t m0 mf mdot :
  0 < mdot -> t < (m0 - mf) / mdot -> m0 - mdot * t > mf.
Proof.
  intros Hmdot Ht.
  assert (H : mdot * t < mdot * ((m0 - mf) / mdot))
    by (apply Rmult_lt_compat_l; lra).
  replace (mdot * ((m0 - mf) / mdot)) with (m0 - mf) in H by (field; lra).
  lra.
Qed.

(** C3. With [m(t) = max(m0 - mdot*t, mf)], [delta_v] returns
    [ve*ln(m0/m(t)) - g*t] whenever [m(t) > mf] and exactly 0 whenever
    [m(t) <= mf]; for a positive mass-flow rate the second case contains every
    [t > T = (m0 - mf)/mdot] and the first is exactly [t < T]. *)
Theorem delta_v_two_state t m0 mf mdot ve g :
  let m_t := Rmax (m0 - mdot * t) mf in
  (m_t > mf -> delta_v t m0 mf mdot ve g = ve * ln (m0 / m_t) - g * t)
  /\ (m_t <= mf -> delta_v t m0 mf mdot ve g = 0)
  /\ (0 < mdot -> t > (m0 - mf) / mdot ->
      m_t = mf /\ delta_v t m0 mf mdot ve g = 0)
  /\ (0 < mdot -> t < (m0 - mf) / mdot ->
      m_t > mf /\ m_t = m0 - mdot * t).
Proof.
  intros m_t. split; [| split; [| split]].
  - intros Hm. unfold delta_v. fold m_t.
    destruct (Rgt_dec m_t mf); [reflexivity | contradiction].
  - intros Hm. unfold delta_v. fold m_t.
    destruct (Rgt_dec m_t mf); [lra | reflexivity].
  - intros Hmdot Ht.
    assert (Hm : m0 - mdot * t <= mf) by (apply mass_after_burn_time; lra).
    split; [now apply Rmax_right | now apply delta_v_burned_out].
  - intros Hmdot Ht.
    assert (Hm : m0 - mdot * t > mf) by now apply mass_before_burn_time.
    unfold m_t. rewrite Rmax_left by lra. now split.
Qed.

(** The scenario's rocket 200 s after ignition, past its burn time. *)
Lemma delta_v_two_state_witness : delta_v 200 m0 mf mdot ve g = 0.
Proof.
  destruct (delta_v_two_state 200 m0 mf mdot ve g) as (_ & _ & Hout & _).
  apply Hout; unfold m0, mf, mdot; lra.
Defined.

(** C6. The burn time is the closed form [(m0 - mf)/mdot]; with the
    scenario's constants it is [2050/13], which is 157.69 to two decimals. *)
Theorem burn_time_closed_form :
  T = (m0 - mf) / mdot
  /\ T = (2.8e6 - 7.5e5) / 1.3e4
  /\ T = 2050 / 13
  /\ 157.685 <= T < 157.695.
Proof.
  unfold T, m0, mf, mdot. repeat split; lra.
Qed.

(** ** Altitude at burnout *)

Lemma derivable_pt_lim_val (f : R -> R) (x l l' : R) :
  derivable_pt_lim f x l -> l = l' -> derivable_pt_lim f x l'.
Proof. intros H <-. exact H. Qed.

Lemma derivable_pt_lim_affine a b x :
  derivable_pt_lim (fun t => a - b * t) x (- b).
Proof.
  apply (derivable_pt_lim_val (minus_fct (fct_cte a) (mult_real_fct b id)) x (0 - b * 1)).
  - apply derivable_pt_lim_minus.
    + apply derivable_pt_lim_const.
    + apply derivable_pt_lim_scal, derivable_pt_lim_id.
  - ring.
Qed.

Section Burn.
Variables m_0 m_dot v_e g_0 : R.
Hypothesis m_0_pos : 0 < m_0.
Hypothesis m_dot_pos : 0 < m_dot.

Let mass (t : R) : R := m_0 - m_dot * t.

Lemma derivable_pt_lim_log_ratio x :
  0 < mass x ->
  derivable_pt_lim (fun t => ln (m_0 / (m_0 - m_dot * t))) x (m_dot / mass x).
Proof.
  intros Hm. unfold mass in *.
  assert (Hratio : derivable_pt_lim (div_fct (fct_cte m_0) (fun t => m_0 - m_dot * t)) x
                     ((0 * (m_0 - m_dot * x) - - m_dot * m_0) / Rsqr (m_0 - m_dot * x))).
  { apply (derivable_pt_lim_div (fct_cte m_0) (fun t => m_0 - m_dot * t)).
    - apply derivable_pt_lim_const.
    - apply derivable_pt_lim_affine.
    - lra. }
  assert (Hpos : 0 < m_0 / (m_0 - m_dot * x))
    by (apply Rdiv_lt_0_compat; lra).
  pose proof (derivable_pt_lim_comp _ ln x _ _ Hratio
                (derivable_pt_lim_ln _ Hpos)) as Hcomp.
  apply (derivable_pt_lim_val _ _ _ _ Hcomp).
  unfold div_fct, fct_cte, Rsqr. field. lra.
Qed.

Lemma derivable_pt_lim_altitude x :
  0 < mass x ->
  derivable_pt_lim (altitude_antiderivative m_0 m_dot v_e g_0) x
                   (burning_velocity m_0 m_dot v_e g_0 x).
Proof.
  intros Hm.
  pose proof (derivable_pt_lim_log_ratio x Hm) as HL.
  pose proof (derivable_pt_lim_affine m_0 m_dot x) as Hmass.
  pose proof (derivable_pt_lim_mult _ _ x _ _ Hmass HL) as HB.
  pose proof (derivable_pt_lim_scal _ (v_e / m_dot) x _ HB) as HC.
  pose proof (derivable_pt_lim_scal _ v_e x _ (derivable_pt_lim_id x)) as HA.
  pose proof (derivable_pt_lim_scal _ (g_0 / 2) x _ (derivable_pt_lim_pow x 2)) as HD.
  pose proof (derivable_pt_lim_minus _ _ x _ _
                (derivable_pt_lim_minus _ _ x _ _ HA HC) HD) as HH.
  apply (derivable_pt_lim_val _ _ _ _ HH).
  unfold burning_velocity, mass in *. simpl. field. lra.
Qed.

Lemma derivable_pt_lim_burning_velocity x :
  0 < mass x ->
  derivable_pt_lim (burning_velocity m_0 m_dot v_e g_0) x
                   (v_e * (m_dot / mass x) - g_0).
Proof.
  intros Hm.
  pose proof (derivable_pt_lim_log_ratio x Hm) as HL.
  pose proof (derivable_pt_lim_scal _ v_e x _ HL) as HA.
  pose proof (derivable_pt_lim_scal _ g_0 x _ (derivable_pt_lim_id x)) as HB.
  pose proof (derivable_pt_lim_minus _ _ x _ _ HA HB) as HH.
  apply (derivable_pt_lim_val _ _ _ _ HH). ring.
Qed.
End Burn.

(** A function that vanishes inside [[a, b]] is integrable there: it is a
    step function on the subdivision [[a; b]]. *)
Lemma null_inside_integrable (f : R -> R) (a b : R) :
  a <= b -> (forall t, a < t < b -> f t = 0) -> Riemann_integrable f a b.
Proof.
  intros Hab Hnull eps.
  assert (Hstep : IsStepFun f a b).
  { exists (a :: b :: nil)%list, (0 :: nil)%list.
    repeat split.
    - intros i Hi. cbn in Hi. assert (i = 0%nat) as -> by lia. exact Hab.
    - cbn. symmetry. now apply Rmin_left.
    - cbn. symmetry. now apply Rmax_right.
    - intros i Hi t Ht. cbn in Hi. assert (i = 0%nat) as -> by lia.
      cbn in Ht |- *. now apply Hnull. }
  exists (mkStepFun Hstep), (mkStepFun (StepFun_P4 a b 0)). split.
  - intros t _. cbn. unfold fct_cte. rewrite Rminus_diag, Rabs_R0. lra.
  - rewrite StepFun_P18, Rmult_0_l, Rabs_R0. apply cond_pos.
Qed.

Section BurnIntegral.
Variables m_0 m_f m_dot v_e g_0 : R.
Hypothesis m_f_pos : 0 < m_f.
Hypothesis m_f_lt : m_f < m_0.
Hypothesis m_dot_pos : 0 < m_dot.

Let T_b : R := (m_0 - m_f) / m_dot.

Lemma burn_time_pos : 0 < T_b.
Proof. unfold T_b. apply Rdiv_lt_0_compat; lra. Qed.

Lemma mass_during_burn t : 0 <= t <= T_b -> m_f <= m_0 - m_dot * t.
Proof.
  intros [_ Ht]. destruct Ht as [Ht | ->].
  - left. now apply mass_before_burn_time.
  - right. unfold T_b. field. lra.
Qed.

Lemma burning_velocity_continuous t :
  0 <= t <= T_b -> continuity_pt (burning_velocity m_0 m_dot v_e g_0) t.
Proof.
  intros Ht. pose proof (mass_during_burn t Ht) as Hm.
  apply derivable_continuous_pt.
  exists (v_e * (m_dot / (m_0 - m_dot * t)) - g_0).
  apply derivable_pt_lim_burning_velocity; lra.
Qed.

Lemma altitude_is_antiderivative :
  antiderivative (burning_velocity m_0 m_dot v_e g_0)
                 (altitude_antiderivative m_0 m_dot v_e g_0) 0 T_b.
Proof.
  split; [| left; apply burn_time_pos].
  intros t Ht. pose proof (mass_during_burn t Ht) as Hm.
  assert (Hd : derivable_pt_lim (altitude_antiderivative m_0 m_dot v_e g_0) t
                 (burning_velocity m_0 m_dot v_e g_0 t))
    by (apply derivable_pt_lim_altitude; lra).
  now exists (exist _ _ Hd).
Qed.

Lemma altitude_antiderivative_ends :
  altitude_antiderivative m_0 m_dot v_e g_0 T_b
  - altitude_antiderivative m_0 m_dot v_e g_0 0
  = altitude_closed_form m_0 m_f m_dot v_e g_0.
Proof.
  unfold altitude_antiderivative, altitude_closed_form. fold T_b.
  replace (m_0 - m_dot * T_b) with m_f by (unfold T_b; field; lra).
  replace (m_0 - m_dot * 0) with m_0 by ring.
  replace (m_0 / m_0) with 1 by (field; lra).
  rewrite ln_1. field. lra.
Qed.

Lemma burning_velocity_integral
    (pr : Riemann_integrable (burning_velocity m_0 m_dot v_e g_0) 0 T_b) :
  RiemannInt pr = altitude_closed_form m_0 m_f m_dot v_e g_0.
Proof.
  assert (Hle : 0 <= T_b) by (left; apply burn_time_pos).
  rewrite (RiemannInt_P20 Hle (FTC_P1 Hle burning_velocity_continuous) pr).
  destruct (antiderivative_Ucte _ _ _ _ _
              (RiemannInt_P29 Hle burning_velocity_continuous)
              altitude_is_antiderivative) as [c Hc].
  rewrite (Hc T_b), (Hc 0) by lra.
  rewrite <- altitude_antiderivative_ends. ring.
Qed.

Lemma delta_v_integrable :
  Riemann_integrable (fun t => delta_v t m_0 m_f m_dot v_e g_0) 0 T_b.
Proof.
  assert (Hle : 0 <= T_b) by (left; apply burn_time_pos).
  apply Riemann_integrable_ext
    with (f := fun t => burning_velocity m_0 m_dot v_e g_0 t
                        + 1 * (delta_v t m_0 m_f m_dot v_e g_0
                               - burning_velocity m_0 m_dot v_e g_0 t)).
  - intros t _. ring.
  - apply RiemannInt_P10.
    + apply continuity_implies_RiemannInt; [exact Hle |].
      exact burning_velocity_continuous.
    + apply null_inside_integrable; [exact Hle |].
      intros t [_ Ht]. rewrite delta_v_burning by now apply mass_before_burn_time.
      unfold burning_velocity. ring.
Qed.

Lemma delta_v_integral
    (pr : Riemann_integrable (fun t => delta_v t m_0 m_f m_dot v_e g_0) 0 T_b) :
  RiemannInt pr = altitude_closed_form m_0 m_f m_dot v_e g_0.
Proof.
  assert (Hle : 0 <= T_b) by (left; apply burn_time_pos).
  assert (prb : Riemann_integrable (burning_velocity m_0 m_dot v_e g_0) 0 T_b)
    by (apply continuity_implies_RiemannInt;
        [exact Hle | exact burning_velocity_continuous]).
  rewrite <- (burning_velocity_integral prb).
  apply RiemannInt_P18; [exact Hle |].
  intros t [_ Ht]. now apply delta_v_burning, mass_before_burn_time.
Qed.

Lemma quad_delta_v :
  quad (fun t => delta_v t m_0 m_f m_dot v_e g_0) 0 T_b
  = altitude_closed_form m_0 m_f m_dot v_e g_0.
Proof.
  unfold quad.
  pose proof (epsilon_spec (inhabits 0)
                (fun I => exists pr : Riemann_integrable
                                        (fun t => delta_v t m_0 m_f m_dot v_e g_0) 0 T_b,
                              I = RiemannInt pr)) as Hspec.
  destruct Hspec as [pr Hpr].
  - exists (RiemannInt delta_v_integrable), delta_v_integrable. reflexivity.
  - rewrite Hpr. apply delta_v_integral.
Qed.
End BurnIntegral.

Lemma exp_double x : exp (2 * x) = exp x * exp x.
Proof. replace (2 * x) with (x + x) by ring. apply exp_plus. Qed.

(** One squaring step of a lower bound on [exp]. *)
Lemma exp_double_lower x c c' :
  0 <= c -> c <= exp x -> c' <= c * c -> c' <= exp (2 * x).
Proof. intros Hc Hx Hc'. rewrite exp_double. nra. Qed.

(** [exp] from below at 1.344 and at -1.28, by [1 + x <= exp x] at a 64th
    of the argument and six squarings with the bounds rounded down. *)
Lemma exp_lower_1344 : 3.7813 <= exp 1.344.
Proof.
  pose proof (exp_ineq1_le 0.021) as H0.
  assert (H1 : 1.042441 <= exp (2 * 0.021))
    by (apply (exp_double_lower _ 1.021); lra).
  assert (H2 : 1.086683 <= exp (2 * (2 * 0.021)))
    by (apply (exp_double_lower _ 1.042441); lra).
  assert (H3 : 1.180879 <= exp (2 * (2 * (2 * 0.021))))
    by (apply (exp_double_lower _ 1.086683); lra).
  assert (H4 : 1.394475 <= exp (2 * (2 * (2 * (2 * 0.021)))))
    by (apply (exp_double_lower _ 1.180879); lra).
  assert (H5 : 1.94456 <= exp (2 * (2 * (2 * (2 * (2 * 0.021))))))
    by (apply (exp_double_lower _ 1.394475); lra).
  assert (H6 : 3.7813 <= exp (2 * (2 * (2 * (2 * (2 * (2 * 0.021)))))))
    by (apply (exp_double_lower _ 1.94456); lra).
  replace 1.344 with (2 * (2 * (2 * (2 * (2 * (2 * 0.021)))))) by lra.
  exact H6.
Qed.

Lemma exp_lower_neg_128 : 0.274449 <= exp (- 1.28).
Proof.
  pose proof (exp_ineq1_le (- 0.02)) as H0.
  assert (H1 : 0.9604 <= exp (2 * - 0.02))
    by (apply (exp_double_lower _ 0.98); lra).
  assert (H2 : 0.922368 <= exp (2 * (2 * - 0.02)))
    by (apply (exp_double_lower _ 0.9604); lra).
  assert (H3 : 0.850762 <= exp (2 * (2 * (2 * - 0.02))))
    by (apply (exp_double_lower _ 0.922368); lra).
  assert (H4 : 0.723795 <= exp (2 * (2 * (2 * (2 * - 0.02)))))
    by (apply (exp_double_lower _ 0.850762); lra).
  assert (H5 : 0.523879 <= exp (2 * (2 * (2 * (2 * (2 * - 0.02))))))
    by (apply (exp_double_lower _ 0.723795); lra).
  assert (H6 : 0.274449 <= exp (2 * (2 * (2 * (2 * (2 * (2 * - 0.02)))))))
    by (apply (exp_double_lower _ 0.523879); lra).
  replace (- 1.28) with (2 * (2 * (2 * (2 * (2 * (2 * - 0.02)))))) by lra.
  exact H6.
Qed.

(** [ln (m0 / mf) = ln (56 / 15)], about 1.3173. *)
Lemma ln_mass_ratio_bounds : 1.28 < ln (m0 / mf) < 1.344.
Proof.
  replace (m0 / mf) with (56 / 15) by (unfold m0, mf; lra).
  split; apply exp_lt_inv; rewrite exp_ln by lra.
  - pose proof exp_lower_neg_128 as Hlow.
    pose proof (exp_pos 1.28) as Hpos.
    assert (Hinv : exp 1.28 * exp (- 1.28) = 1)
      by (rewrite <- exp_plus; replace (1.28 + - 1.28) with 0 by lra; apply exp_0).
    set (a := exp 1.28) in *. set (b := exp (- 1.28)) in *.
    nra.
  - pose proof exp_lower_1344. lra.
Qed.

(** With the scenario's constants the closed form is about 74 km. *)
Lemma altitude_closed_form_bounds :
  7e4 < altitude_closed_form m0 mf mdot ve g < 8e4.
Proof.
  pose proof ln_mass_ratio_bounds as HL.
  unfold altitude_closed_form.
  set (L := ln (m0 / mf)) in *.
  unfold m0, mf, mdot, ve, g. lra.
Qed.

(** C8. The burnout altitude [h = quad(v_func, 0, T)] is the definite
    (Riemann) integral of [v_func] over [[0, T]], which exists although
    [v_func] jumps to 0 at [T]; it equals the increment over [[0, T]] of the
    closed-form antiderivative of the burning velocity, with which [v_func]
    agrees on [[0, T)]; and with the scenario's constants it lies between
    7e4 and 8e4 m, hence is positive and of order 1e4 to 1e5 m. *)
Theorem burnout_altitude :
  (exists pr : Riemann_integrable v_func 0 T, h = RiemannInt pr)
  /\ h = altitude_antiderivative m0 mdot ve g T
         - altitude_antiderivative m0 mdot ve g 0
  /\ h = altitude_closed_form m0 mf mdot ve g
  /\ (forall t, 0 <= t < T ->
      v_func t = burning_velocity m0 mdot ve g t
      /\ derivable_pt_lim (altitude_antiderivative m0 mdot ve g) t (v_func t))
  /\ v_func T = 0
  /\ 7e4 < h < 8e4
  /\ 1e4 < h < 1e5.
Proof.
  assert (Hmf : 0 < mf) by (unfold mf; lra).
  assert (Hm0 : mf < m0) by (unfold mf, m0; lra).
  assert (Hmdot : 0 < mdot) by (unfold mdot; lra).
  assert (Hh : h = altitude_closed_form m0 mf mdot ve g)
    by (apply quad_delta_v; assumption).
  pose proof altitude_closed_form_bounds as Hb.
  split; [| split; [| split; [exact Hh | split; [| split; [| rewrite Hh; lra]]]]].
  - exists (delta_v_integrable m0 mf mdot ve g Hmf Hm0 Hmdot).
    rewrite Hh. symmetry. now apply delta_v_integral.
  - rewrite Hh. symmetry. now apply altitude_antiderivative_ends.
  - intros t [Ht0 Ht].
    assert (Hm : m0 - mdot * t > mf) by now apply mass_before_burn_time.
    assert (Hv : v_func t = burning_velocity m0 mdot ve g t)
      by now apply delta_v_burning.
    split; [exact Hv |]. rewrite Hv.
    apply derivable_pt_lim_altitude; lra.
  - apply delta_v_burned_out, mass_after_burn_time; [exact Hmdot |].
    unfold T. lra.
Qed.

(** * Further properties of the notebook's code *)

(** ** The sample axes: [np.linspace] (lines 26, 40-41) *)

Lemma lookup_linspace (a b : R) (n k : nat) :
  (k < n)%nat ->
  linspace a b n !! k = Some (INR k * ((b - a) / INR (n - 1)) + a).
Proof.
  intros Hk. unfold linspace. rewrite list_lookup_fmap, lookup_seq_lt by exact Hk.
  reflexivity.
Qed.

Lemma lookup_linspace_Some (a b : R) (n k : nat) v :
  linspace a b n !! k = Some v ->
  (k < n)%nat /\ v = INR k * ((b - a) / INR (n - 1)) + a.
Proof.
  intros Hv. assert (Hk : (k < n)%nat).
  { apply lookup_lt_Some in Hv. now rewrite length_linspace in Hv. }
  rewrite lookup_linspace in Hv by exact Hk. injection Hv as <-. now split.
Qed.

(** X1. An axis of at least two samples starts at [start], ends at [stop], has
    [num] entries and, when [start < stop], is strictly increasing. *)
Theorem linspace_axis (a b : R) (n : nat) :
  (2 <= n)%nat ->
  length (linspace a b n) = n
  /\ linspace a b n !! 0%nat = Some a
  /\ linspace a b n !! (n - 1)%nat = Some b
  /\ (a < b ->
      forall j k vj vk, (j < k)%nat ->
        linspace a b n !! j = Some vj -> linspace a b n !! k = Some vk ->
        vj < vk).
Proof.
  intros Hn.
  assert (Hpos : 0 < INR (n - 1)) by (apply lt_0_INR; lia).
  split; [apply length_linspace |]. split; [| split].
  - rewrite lookup_linspace by lia. f_equal. cbn [INR]. ring.
  - rewrite lookup_linspace by lia. f_equal. field. lra.
  - intros Hab j k vj vk Hjk Hj Hk.
    apply lookup_linspace_Some in Hj as [_ ->].
    apply lookup_linspace_Some in Hk as [_ ->].
    assert (Hstep : 0 < (b - a) / INR (n - 1)) by (apply Rdiv_lt_0_compat; lra).
    apply lt_INR in Hjk. nra.
Qed.

(** The grid axis [x] runs from [-1.5 d] to [1.5 d]. *)
Lemma linspace_axis_witness :
  x !! 0%nat = Some (-1.5 * d_earth_moon)
  /\ x !! 499%nat = Some (1.5 * d_earth_moon).
Proof.
  assert (Hn : (2 <= grid_pts)%nat) by (unfold grid_pts; lia).
  destruct (linspace_axis (-1.5 * d_earth_moon) (1.5 * d_earth_moon) grid_pts Hn)
    as (_ & Hfirst & Hlast & _).
  split; [exact Hfirst | exact Hlast].
Defined.

(** ** The grid: [np.meshgrid] (line 42) *)

Lemma getitem2_meshgrid_total (xs ys : list R) (i j : nat) :
  getitem2 (fst (meshgrid xs ys)) i j
  = (if decide (i < length ys)%nat then xs !! j else None)
  /\ getitem2 (snd (meshgrid xs ys)) i j
     = (if decide (j < length xs)%nat then ys !! i else None).
Proof.
  unfold getitem2, meshgrid. cbn [fst snd].
  rewrite !list_lookup_fmap.
  destruct (decide (i < length ys)%nat) as [Hi | Hi].
  - destruct (lookup_lt_is_Some_2 ys i Hi) as [yi Hyi]. rewrite Hyi. cbn.
    split; [reflexivity |]. rewrite list_lookup_fmap.
    destruct (decide (j < length xs)%nat) as [Hj | Hj].
    + destruct (lookup_lt_is_Some_2 xs j Hj) as [xj Hxj]. now rewrite Hxj.
    + rewrite (proj2 (lookup_ge_None xs j)) by lia. reflexivity.
  - rewrite (proj2 (lookup_ge_None ys i)) by lia. cbn.
    split; [reflexivity |]. now destruct (decide (j < length xs)%nat).
Qed.

Lemma getitem2_Y_transpose (i j : nat) : getitem2 Y i j = getitem2 X j i.
Proof.
  unfold X, Y.
  destruct (getitem2_meshgrid_total x y i j) as [_ ->].
  destruct (getitem2_meshgrid_total x y j i) as [-> _].
  reflexivity.
Qed.


(** ** The grid never enters a clamp (lines 40-43, 55-57, 94-96) *)

Lemma dist_euc_ge_abs_x x y a b : Rabs (x - a) <= dist_euc x y a b.
Proof.
  unfold dist_euc. rewrite <- (sqrt_Rsqr_abs (x - a)).
  apply sqrt_le_1_alt. pose proof (Rle_0_sqr (y - b)). lra.
Qed.

Lemma sqrt2_bounds : 1.4142 < sqrt 2 < 1.4143.
Proof.
  split.
  - rewrite <- (sqrt_square 1.4142) by lra. apply sqrt_lt_1_alt. lra.
  - rewrite <- (sqrt_square 1.4143) by lra. apply sqrt_lt_1_alt. lra.
Qed.

Lemma x_moon_bounds : 268684000 < x_moon < 268703200.
Proof.
  pose proof sqrt2_bounds as Hs.
  assert (Hprod : x_moon * sqrt 2 = 3.8e8)
    by (unfold x_moon, d_earth_moon; field; lra).
  set (s := sqrt 2) in *. set (m := x_moon) in *.
  assert (Hm : 0 < m) by nra.
  split; nra.
Qed.

(** The [k]-th sample of the grid axis, in closed form. *)
Lemma grid_axis_value (k : nat) v :
  x !! k = Some v -> (k < 500)%nat /\ v = INR k * (1.14e9 / 499) - 5.7e8.
Proof.
  intros Hv. unfold x in Hv. apply lookup_linspace_Some in Hv as [Hk ->].
  split; [exact Hk |].
  change (grid_pts - 1)%nat with 499%nat. rewrite (INR_IZR_INZ 499).
  change (Z.of_nat 499) with 499%Z. unfold d_earth_moon. lra.
Qed.

Lemma INR_le_const (k c : nat) : (k <= c)%nat -> INR k <= IZR (Z.of_nat c).
Proof. intros Hk. rewrite <- INR_IZR_INZ. now apply le_INR. Qed.

Lemma INR_ge_const (k c : nat) : (c <= k)%nat -> IZR (Z.of_nat c) <= INR k.
Proof. intros Hk. rewrite <- INR_IZR_INZ. now apply le_INR. Qed.

(** The axis has an even number of samples placed symmetrically, so none is
    within half a step (1142 km) of 0. *)
Lemma grid_axis_off_earth (k : nat) v : x !! k = Some v -> 1e6 <= Rabs v.
Proof.
  intros Hv. apply grid_axis_value in Hv as [_ ->].
  destruct (le_lt_dec k 249) as [Hk | Hk].
  - apply (INR_le_const k 249) in Hk. change (Z.of_nat 249) with 249%Z in Hk.
    rewrite Rabs_left by lra. lra.
  - apply (INR_ge_const k 250) in Hk. change (Z.of_nat 250) with 250%Z in Hk.
    rewrite Rabs_right by lra. lra.
Qed.

(** The Moon's coordinate falls between the samples 367 and 368, more than
    200 km from either. *)
Lemma grid_axis_off_moon (k : nat) v : x !! k = Some v -> 1e5 <= Rabs (v - x_moon).
Proof.
  intros Hv. apply grid_axis_value in Hv as [_ ->].
  pose proof x_moon_bounds as Hm.
  destruct (le_lt_dec k 367) as [Hk | Hk].
  - apply (INR_le_const k 367) in Hk. change (Z.of_nat 367) with 367%Z in Hk.
    rewrite Rabs_left by lra. lra.
  - apply (INR_ge_const k 368) in Hk. change (Z.of_nat 368) with 368%Z in Hk.
    rewrite Rabs_right by lra. lra.
Qed.

Lemma grid_point (i j : nat) :
  (i < grid_pts)%nat -> (j < grid_pts)%nat ->
  exists xq yq,
    getitem2 X i j = Some xq /\ getitem2 Y i j = Some yq
    /\ x !! j = Some xq /\ y !! i = Some yq.
Proof.
  intros Hi Hj.
  assert (Hlx : length x = grid_pts) by apply length_linspace.
  assert (Hly : length y = grid_pts) by apply length_linspace.
  destruct (getitem2_meshgrid x y i j) as [HX HY]; [lia | lia |].
  destruct (lookup_lt_is_Some_2 x j) as [xq Hxq]; [lia |].
  destruct (lookup_lt_is_Some_2 y i) as [yq Hyq]; [lia |].
  exists xq, yq. unfold X, Y. rewrite HX, HY. auto.
Qed.

Lemma grid_point_clear (i j : nat) xq yq :
  getitem2 X i j = Some xq -> getitem2 Y i j = Some yq ->
  1e6 <= dist_euc xq yq 0 0 /\ 1e5 <= dist_euc xq yq x_moon y_moon.
Proof.
  intros HX HY.
  assert (Hi : (i < grid_pts)%nat /\ (j < grid_pts)%nat).
  { unfold getitem2 in HX. destruct (X !! i) as [row |] eqn:Hrow; [| discriminate].
    cbn in HX. pose proof shape_X as [Hlen Hrows].
    pose proof (Forall_lookup_1 _ _ _ _ Hrows Hrow) as Hr. cbn in Hr.
    apply lookup_lt_Some in Hrow, HX. lia. }
  destruct Hi as [Hi Hj].
  destruct (grid_point i j Hi Hj) as (xq' & yq' & HX' & HY' & Hx & Hy).
  rewrite HX in HX'. injection HX' as <-.
  split.
  - eapply Rle_trans; [| apply dist_euc_ge_abs_x].
    rewrite Rminus_0_r. now apply (grid_axis_off_earth j).
  - eapply Rle_trans; [| apply dist_euc_ge_abs_x].
    now apply (grid_axis_off_moon j).
Qed.

Lemma dist_euc_ge_1e3 x y a b :
  1e3 <= dist_euc x y a b -> 1e6 <= (x - a) ^ 2 + (y - b) ^ 2.
Proof.
  intros Hd. rewrite dist_euc_pow2 in Hd.
  rewrite <- (sqrt_sqrt ((x - a) ^ 2 + (y - b) ^ 2)) by apply sum_sq_nonneg.
  nra.
Qed.

Lemma gravitational_potential_neg M xM yM x y :
  0 < M -> gravitational_potential M xM yM x y < 0.
Proof.
  intros HM. rewrite gravitational_potential_dist.
  pose proof (clamp_r_ge (dist_euc x y xM yM)) as Hr. pose proof G_pos as HG.
  set (r := Rmax (dist_euc x y xM yM) 1e3) in *.
  assert (Hq : 0 < G * M / r)
    by (apply Rdiv_lt_0_compat; [now apply Rmult_lt_0_compat | lra]).
  replace (- G * M / r) with (- (G * M / r)) by (field; lra). lra.
Qed.

(** X3. On the notebook's 500 by 500 grid every point is at least 1000 km from
    the Earth and 100 km from the Moon, so no entry of [phi] or [phi_total]
    is clamped: each is the exact [-G*M/r] law, or the sum of two. *)
Theorem potential_grid_unclamped (i j : nat) :
  (i < grid_pts)%nat -> (j < grid_pts)%nat ->
  exists xq yq,
    getitem2 X i j = Some xq /\ getitem2 Y i j = Some yq
    /\ 1e6 <= dist_euc xq yq 0 0
    /\ 1e5 <= dist_euc xq yq x_moon y_moon
    /\ getitem2 phi i j = Some (- (G * M_earth / dist_euc xq yq 0 0))
    /\ getitem2 phi_total i j
       = Some (- (G * M_earth / dist_euc xq yq 0 0)
               + - (G * M_moon / dist_euc xq yq x_moon y_moon)).
Proof.
  intros Hi Hj.
  destruct (grid_point i j Hi Hj) as (xq & yq & HX & HY & _).
  destruct (grid_point_clear i j xq yq HX HY) as [He Hm].
  exists xq, yq. repeat split; try assumption.
  - unfold phi, gravitational_potential_grid.
    rewrite getitem2_broadcast2, HX, HY. bind_step.
    now rewrite gravitational_potential_far by lra.
  - unfold phi_total. rewrite getitem2_potential_sum, HX, HY. bind_step.
    now rewrite !gravitational_potential_far by lra.
Qed.

Lemma potential_grid_unclamped_witness :
  exists xq yq,
    getitem2 X 0 0 = Some xq /\ getitem2 Y 0 0 = Some yq
    /\ getitem2 phi 0 0 = Some (- (G * M_earth / dist_euc xq yq 0 0)).
Proof.
  assert (H0 : (0 < grid_pts)%nat) by (unfold grid_pts; lia).
  destruct (potential_grid_unclamped 0 0 H0 H0)
    as (xq & yq & HX & HY & _ & _ & Hphi & _).
  exists xq, yq. auto.
Defined.

(** X4. Every entry of [phi] and of [phi_total] is strictly negative, so the
    [np.abs] the plots take of them is strictly positive (the log colour
    scale and [np.log10] are defined), and [|phi_total|] is the sum of the
    two sources' [|potential|]. *)
Theorem potential_grid_negative :
  (forall (i j : nat) v, getitem2 phi i j = Some v -> v < 0 /\ 0 < Rabs v)
  /\ (forall (i j : nat) v,
      getitem2 phi_total i j = Some v ->
      v < 0 /\ 0 < Rabs v
      /\ exists xq yq,
          getitem2 X i j = Some xq /\ getitem2 Y i j = Some yq
          /\ Rabs v = Rabs (gravitational_potential M_earth 0 0 xq yq)
                      + Rabs (gravitational_potential M_moon x_moon y_moon xq yq)).
Proof.
  assert (HMe : 0 < M_earth) by (unfold M_earth; lra).
  assert (HMm : 0 < M_moon) by (unfold M_moon; lra).
  split.
  - intros i j v. unfold phi, gravitational_potential_grid.
    rewrite getitem2_broadcast2.
    destruct (getitem2 X i j) as [xq |]; [| discriminate]. bind_step.
    destruct (getitem2 Y i j) as [yq |]; [| discriminate]. bind_step.
    intros [= <-].
    pose proof (gravitational_potential_neg M_earth 0 0 xq yq HMe) as Hneg.
    split; [exact Hneg |]. apply Rabs_pos_lt. lra.
  - intros i j v. unfold phi_total. rewrite getitem2_potential_sum.
    destruct (getitem2 X i j) as [xq |]; [| discriminate]. bind_step.
    destruct (getitem2 Y i j) as [yq |]; [| discriminate]. bind_step.
    intros [= <-].
    pose proof (gravitational_potential_neg M_earth 0 0 xq yq HMe) as Hne.
    pose proof (gravitational_potential_neg M_moon x_moon y_moon xq yq HMm) as Hnm.
    split; [lra |]. split; [apply Rabs_pos_lt; lra |].
    exists xq, yq. repeat split. rewrite !Rabs_left by lra. ring.
Qed.

(** X5. On the notebook's grid each of the two forces added in a cell has the
    exact inverse-square magnitude [G*M*m_cmd/r^2]: the clamp of
    [gravitational_force] never acts there. *)
Theorem force_grid_inverse_square (i j : nat) :
  (i < grid_pts)%nat -> (j < grid_pts)%nat ->
  exists xq yq,
    getitem2 X i j = Some xq /\ getitem2 Y i j = Some yq
    /\ norm2 (fst (gravitational_force M_earth m_cmd 0 0 xq yq))
             (snd (gravitational_force M_earth m_cmd 0 0 xq yq))
       = G * M_earth * m_cmd / ((xq - 0) ^ 2 + (yq - 0) ^ 2)
    /\ norm2 (fst (gravitational_force M_moon m_cmd x_moon y_moon xq yq))
             (snd (gravitational_force M_moon m_cmd x_moon y_moon xq yq))
       = G * M_moon * m_cmd / ((xq - x_moon) ^ 2 + (yq - y_moon) ^ 2).
Proof.
  intros Hi Hj.
  destruct (grid_point i j Hi Hj) as (xq & yq & HX & HY & _).
  destruct (grid_point_clear i j xq yq HX HY) as [He Hm].
  exists xq, yq. split; [exact HX |]. split; [exact HY |].
  assert (Hgen : forall M xs ys, 0 <= M -> 1e3 <= dist_euc xq yq xs ys ->
            norm2 (fst (gravitational_force M m_cmd xs ys xq yq))
                  (snd (gravitational_force M m_cmd xs ys xq yq))
            = G * M * m_cmd / ((xq - xs) ^ 2 + (yq - ys) ^ 2)).
  { intros M xs ys HM Hd. pose proof (dist_euc_ge_1e3 _ _ _ _ Hd) as Hd2.
    pose proof (gravitational_force_norm M m_cmd xs ys xq yq) as Hn.
    cbv zeta in Hn. rewrite Hn, Rmax_left by exact Hd2.
    rewrite Rabs_pos_eq by (unfold m_cmd; nra).
    assert (0 < sqrt ((xq - xs) ^ 2 + (yq - ys) ^ 2)) by (apply sqrt_lt_R0; lra).
    field. split; lra. }
  split; apply Hgen; try lra; unfold M_earth, M_moon; lra.
Qed.

Lemma force_grid_inverse_square_witness :
  exists xq yq,
    getitem2 X 0 0 = Some xq /\ getitem2 Y 0 0 = Some yq
    /\ norm2 (fst (gravitational_force M_earth m_cmd 0 0 xq yq))
             (snd (gravitational_force M_earth m_cmd 0 0 xq yq))
       = G * M_earth * m_cmd / ((xq - 0) ^ 2 + (yq - 0) ^ 2).
Proof.
  assert (H0 : (0 < grid_pts)%nat) by (unfold grid_pts; lia).
  destruct (force_grid_inverse_square 0 0 H0 H0) as (xq & yq & HX & HY & He & _).
  exists xq, yq. auto.
Defined.

(** ** The force law: symmetry, bound and relation to the potential
    (lines 20-23, 79-86) *)

(** X6. Action and reaction: exchanging the roles of the two bodies (masses and
    positions) reverses the force, and the force depends on the two masses
    only through their product. *)
Theorem gravitational_force_third_law M1 m2 x1 y1 x2 y2 :
  gravitational_force m2 M1 x2 y2 x1 y1
  = (- fst (gravitational_force M1 m2 x1 y1 x2 y2),
     - snd (gravitational_force M1 m2 x1 y1 x2 y2))
  /\ gravitational_force m2 M1 x1 y1 x2 y2
     = gravitational_force M1 m2 x1 y1 x2 y2.
Proof.
  pose proof (force_c2_pos x1 y1 x2 y2) as Hc.
  pose proof (force_r_ge x1 y1 x2 y2) as Hr. cbv zeta in Hc, Hr.
  split.
  - unfold gravitational_force. cbn [fst snd].
    replace ((x1 - x2) ^ 2 + (y1 - y2) ^ 2)
      with ((x2 - x1) ^ 2 + (y2 - y1) ^ 2) by ring.
    f_equal; field; lra.
  - unfold gravitational_force. f_equal; field; lra.
Qed.

(** X7. The force is bounded: its magnitude, and each component, never exceeds
    the value [G*|M1*m2|/1e6] reached at 1000 m from the source. *)
Theorem gravitational_force_bounded M1 m2 x1 y1 x2 y2 :
  let F := gravitational_force M1 m2 x1 y1 x2 y2 in
  norm2 (fst F) (snd F) <= G * Rabs (M1 * m2) / 1e6
  /\ Rabs (fst F) <= G * Rabs (M1 * m2) / 1e6
  /\ Rabs (snd F) <= G * Rabs (M1 * m2) / 1e6.
Proof.
  intros F.
  assert (Hnorm : norm2 (fst F) (snd F) <= G * Rabs (M1 * m2) / 1e6).
  { pose proof (gravitational_force_norm M1 m2 x1 y1 x2 y2) as Hn.
    pose proof (force_c2_pos x1 y1 x2 y2) as Hc.
    pose proof (force_r_ge x1 y1 x2 y2) as Hr.
    cbv zeta in Hn, Hc, Hr. fold F in Hn. rewrite Hn.
    set (d2 := (x2 - x1) ^ 2 + (y2 - y1) ^ 2) in *.
    pose proof (clamp_r2_ge d2) as Hc2.
    assert (Hd : 0 <= d2) by apply sum_sq_nonneg.
    assert (Hs : sqrt d2 <= sqrt (Rmax d2 1e6))
      by (apply sqrt_le_1_alt, Rmax_l).
    pose proof (sqrt_pos d2) as Hsd.
    set (c2 := Rmax d2 1e6) in *. set (r := sqrt c2) in *.
    assert (Hk : 0 <= G * Rabs (M1 * m2))
      by (apply Rmult_le_pos; [left; apply G_pos | apply Rabs_pos]).
    set (k := G * Rabs (M1 * m2)) in *.
    assert (Hratio : 0 <= sqrt d2 / r <= 1).
    { split.
      - apply Rmult_le_pos; [exact Hsd | left; apply Rinv_0_lt_compat; lra].
      - apply (Rmult_le_reg_r r); [lra |].
        replace (sqrt d2 / r * r) with (sqrt d2) by (field; lra). lra. }
    assert (Hkc : 0 <= k / c2 <= k / 1e6).
    { split.
      - apply Rmult_le_pos; [exact Hk | left; apply Rinv_0_lt_compat; lra].
      - apply Rmult_le_compat_l; [exact Hk |]. apply Rinv_le_contravar; lra. }
    nra. }
  split; [exact Hnorm |].
  split; (eapply Rle_trans; [| exact Hnorm]); unfold norm2;
    [rewrite <- (sqrt_Rsqr_abs (fst F)) | rewrite <- (sqrt_Rsqr_abs (snd F))];
    apply sqrt_le_1_alt; rewrite Rsqr_pow2;
    pose proof (pow2_ge_0 (fst F)); pose proof (pow2_ge_0 (snd F)); lra.
Qed.

(** The Moon sits on the diagonal at the Earth-Moon distance from the
    origin (lines 55-56). *)
Lemma moon_at_earth_moon_distance :
  dist_euc x_moon y_moon 0 0 = d_earth_moon /\ x_moon = y_moon.
Proof.
  split; [| reflexivity].
  unfold dist_euc, y_moon, x_moon. rewrite !Rminus_0_r.
  assert (Hd : 0 <= d_earth_moon) by (unfold d_earth_moon; lra).
  pose proof sqrt2_bounds as Hs.
  assert (Hss : sqrt 2 * sqrt 2 = 2) by (apply sqrt_sqrt; lra).
  replace (Rsqr (d_earth_moon / sqrt 2) + Rsqr (d_earth_moon / sqrt 2))
    with (Rsqr d_earth_moon).
  - now apply sqrt_Rsqr.
  - unfold Rsqr.
    transitivity (2 * (d_earth_moon * d_earth_moon) / (sqrt 2 * sqrt 2)).
    + rewrite Hss. field.
    + field. lra.
Qed.

Lemma derivable_pt_lim_sq_dist (a c x : R) :
  derivable_pt_lim (fun u => (u - a) ^ 2 + c) x (2 * (x - a)).
Proof.
  intros eps Heps. exists (mkposreal eps Heps). intros h Hh Hlt. cbn in Hlt.
  replace (((x + h - a) ^ 2 + c - ((x - a) ^ 2 + c)) / h - 2 * (x - a)) with h
    by (field; exact Hh).
  exact Hlt.
Qed.

(** A function continuous at [x] that exceeds [c] there exceeds [c] on an
    interval around [x]. *)
Lemma continuity_pt_above (f : R -> R) (x c : R) :
  continuity_pt f x -> c < f x ->
  exists a b, a < x < b /\ forall u, a < u < b -> c < f u.
Proof.
  intros Hcont Hc.
  destruct (Hcont (f x - c)) as (alp & Halp & Hnear); [lra |].
  exists (x - alp), (x + alp). split; [lra |].
  intros u Hu. destruct (Req_dec x u) as [<- | Hne]; [exact Hc |].
  assert (Hd : Rdist (f u) (f x) < f x - c).
  { apply Hnear. split; [split; [exact I | exact Hne] |].
    cbn. unfold Rdist. apply Rabs_def1; lra. }
  unfold Rdist in Hd. apply Rabs_def2 in Hd. lra.
Qed.

(** The partial derivative of the potential along the first coordinate,
    outside the clamp. *)
Lemma derivable_pt_lim_potential_x M xs ys x y :
  1e3 < sqrt ((x - xs) ^ 2 + (y - ys) ^ 2) ->
  derivable_pt_lim (fun u => gravitational_potential M xs ys u y) x
    (G * M * (x - xs) / sqrt ((x - xs) ^ 2 + (y - ys) ^ 2) ^ 3).
Proof.
  intros Hr. set (r := sqrt ((x - xs) ^ 2 + (y - ys) ^ 2)) in *.
  set (s := fun u : R => (u - xs) ^ 2 + (y - ys) ^ 2).
  assert (Hs : 0 < s x).
  { unfold s. destruct (Rle_or_lt ((x - xs) ^ 2 + (y - ys) ^ 2) 0) as [Hle | Hlt];
      [| exact Hlt].
    unfold r in Hr. rewrite sqrt_neg_0 in Hr by exact Hle. lra. }
  assert (Hdist : derivable_pt_lim (comp sqrt s) x (/ (2 * sqrt (s x)) * (2 * (x - xs)))).
  { apply (derivable_pt_lim_comp s sqrt x).
    - apply derivable_pt_lim_sq_dist.
    - now apply derivable_pt_lim_sqrt. }
  assert (Hfree : derivable_pt_lim (div_fct (fct_cte (- G * M)) (comp sqrt s)) x
            ((0 * comp sqrt s x - / (2 * sqrt (s x)) * (2 * (x - xs)) * (- G * M))
             / Rsqr (comp sqrt s x))).
  { apply (derivable_pt_lim_div (fct_cte (- G * M)) (comp sqrt s) x 0
             (/ (2 * sqrt (s x)) * (2 * (x - xs)))).
    - apply derivable_pt_lim_const.
    - exact Hdist.
    - unfold comp. change (sqrt (s x)) with r. lra. }
  assert (Hcont : continuity_pt (comp sqrt s) x).
  { apply derivable_continuous_pt. eexists. exact Hdist. }
  destruct (continuity_pt_above (comp sqrt s) x 1e3 Hcont) as (a & b & Hab & Hnear);
    [unfold comp, s; fold r; exact Hr |].
  apply (derivable_pt_lim_locally_ext
           (div_fct (fct_cte (- G * M)) (comp sqrt s)) _ x a b); [exact Hab | |].
  - intros u Hu. specialize (Hnear u Hu). unfold comp, s in Hnear.
    unfold gravitational_potential, div_fct, fct_cte, comp, s.
    now rewrite Rmax_left by lra.
  - apply (derivable_pt_lim_val _ _ _ _ Hfree).
    unfold comp, Rsqr. change (sqrt (s x)) with r. field. lra.
Qed.

Lemma gravitational_potential_swap M xs ys x y :
  gravitational_potential M xs ys x y = gravitational_potential M ys xs y x.
Proof. unfold gravitational_potential. now rewrite Rplus_comm. Qed.

(** X8. Outside the clamp the force on the test mass is minus the test mass times
    the gradient of the source's potential: the two functions describe one
    field. *)
Theorem force_is_minus_gradient M m xs ys x y :
  1e3 < dist_euc x y xs ys ->
  exists gx gy,
    derivable_pt_lim (fun u => gravitational_potential M xs ys u y) x gx
    /\ derivable_pt_lim (fun v => gravitational_potential M xs ys x v) y gy
    /\ gravitational_force M m xs ys x y = (- (m * gx), - (m * gy)).
Proof.
  intros Hd. rewrite dist_euc_pow2 in Hd.
  set (r := sqrt ((x - xs) ^ 2 + (y - ys) ^ 2)) in *.
  exists (G * M * (x - xs) / r ^ 3), (G * M * (y - ys) / r ^ 3).
  split; [| split].
  - now apply derivable_pt_lim_potential_x.
  - apply (derivable_pt_lim_ext (fun v => gravitational_potential M ys xs v x)).
    + intros v. symmetry. apply gravitational_potential_swap.
    + assert (Hr : r = sqrt ((y - ys) ^ 2 + (x - xs) ^ 2))
        by (unfold r; now rewrite Rplus_comm).
      rewrite Hr. apply derivable_pt_lim_potential_x. rewrite <- Hr. exact Hd.
  - assert (Hd2 : 1e6 <= (x - xs) ^ 2 + (y - ys) ^ 2)
      by (apply dist_euc_ge_1e3; rewrite dist_euc_pow2; fold r; lra).
    assert (Hrr : r * r = (x - xs) ^ 2 + (y - ys) ^ 2)
      by (apply sqrt_sqrt; lra).
    unfold gravitational_force. rewrite Rmax_left by exact Hd2. fold r.
    rewrite <- Hrr. f_equal; field; lra.
Qed.

(** Two kilometres from a unit source on the x axis. *)
Lemma force_is_minus_gradient_witness :
  exists gx gy,
    derivable_pt_lim (fun u => gravitational_potential 1 0 0 u 0) 2e3 gx
    /\ derivable_pt_lim (fun v => gravitational_potential 1 0 0 2e3 v) 0 gy
    /\ gravitational_force 1 1 0 0 2e3 0 = (- (1 * gx), - (1 * gy)).
Proof.
  apply (force_is_minus_gradient 1 1 0 0 2e3 0).
  rewrite dist_euc_axis; lra.
Defined.

(** ** The velocity profile: edge cases, bounds and the jump at burnout
    (lines 112-117) *)

(** X9. At ignition the velocity is 0; a rocket with no propellant ([m0 <= mf])
    never moves; and with no mass flow ([mdot = 0]) the rocket never burns
    out and the profile is the free fall [-g*t]. *)
Theorem delta_v_edge_cases t m0 mf mdot ve g :
  (m0 <> 0 -> delta_v 0 m0 mf mdot ve g = 0)
  /\ (m0 <= mf -> 0 <= mdot -> 0 <= t -> delta_v t m0 mf mdot ve g = 0)
  /\ (mdot = 0 -> mf < m0 -> m0 <> 0 -> delta_v t m0 mf mdot ve g = - g * t).
Proof.
  split; [| split].
  - intros Hm0. destruct (Rle_or_lt (m0 - mdot * 0) mf) as [Hle | Hgt].
    + now apply delta_v_burned_out.
    + rewrite delta_v_burning by lra.
      replace (m0 / (m0 - mdot * 0)) with 1 by (field; exact Hm0).
      rewrite ln_1. ring.
  - intros Hm Hmdot Ht. apply delta_v_burned_out. nra.
  - intros -> Hm Hm0. rewrite delta_v_burning by lra.
    replace (m0 / (m0 - 0 * t)) with 1 by (field; exact Hm0).
    rewrite ln_1. ring.
Qed.

Lemma delta_v_edge_cases_witness : delta_v 0 m0 mf mdot ve g = 0.
Proof.
  destruct (delta_v_edge_cases 0 m0 mf mdot ve g) as (Hign & _).
  apply Hign. unfold m0. lra.
Defined.

Lemma ln_lower_bound z : 0 < z -> 1 - / z <= ln z.
Proof.
  intros Hz. pose proof (exp_ineq1_le (- ln z)) as He.
  rewrite exp_Ropp, exp_ln in He by exact Hz. lra.
Qed.

Lemma ln_monotone x y : 0 < x -> x <= y -> ln x <= ln y.
Proof.
  intros Hx [Hlt | ->]; [left; now apply ln_increasing | right; reflexivity].
Qed.

(** X10. The velocity never exceeds the ideal rocket equation's [ve*ln(m0/mf)]. *)
Theorem delta_v_upper_bound t m0 mf mdot ve g :
  0 < mf -> mf <= m0 -> 0 <= mdot -> 0 <= ve -> 0 <= g -> 0 <= t ->
  delta_v t m0 mf mdot ve g <= ve * ln (m0 / mf).
Proof.
  intros Hmf Hm0 Hmdot Hve Hg Ht.
  assert (Hideal : 0 <= ln (m0 / mf)).
  { rewrite <- ln_1. apply ln_monotone; [lra |].
    apply (Rmult_le_reg_r mf); [exact Hmf |].
    replace (m0 / mf * mf) with m0 by (field; lra). lra. }
  destruct (Rle_or_lt (m0 - mdot * t) mf) as [Hle | Hgt].
  - rewrite delta_v_burned_out by exact Hle. now apply Rmult_le_pos.
  - rewrite delta_v_burning by lra.
    assert (Hm : m0 - mdot * t <= m0) by nra.
    assert (Hratio : m0 / (m0 - mdot * t) <= m0 / mf).
    { apply Rmult_le_compat_l; [lra |]. apply Rinv_le_contravar; lra. }
    assert (Hpos : 0 < m0 / (m0 - mdot * t))
      by (apply Rdiv_lt_0_compat; lra).
    pose proof (ln_monotone _ _ Hpos Hratio) as Hln.
    assert (Hgt0 : 0 <= g * t) by now apply Rmult_le_pos.
    nra.
Qed.

Lemma delta_v_upper_bound_witness :
  delta_v 100 m0 mf mdot ve g <= ve * ln (m0 / mf).
Proof.
  apply delta_v_upper_bound; unfold m0, mf, mdot, ve, g; lra.
Defined.

(** X11. If the thrust at lift-off carries the weight ([g*m0 <= ve*mdot]) the
    velocity is never negative. *)
Theorem delta_v_nonneg t m0 mf mdot ve g :
  0 <= mf -> 0 < m0 -> 0 <= ve -> g * m0 <= ve * mdot -> 0 <= t ->
  0 <= delta_v t m0 mf mdot ve g.
Proof.
  intros Hmf Hm0 Hve Hlift Ht.
  destruct (Rle_or_lt (m0 - mdot * t) mf) as [Hle | Hgt].
  - rewrite delta_v_burned_out by exact Hle. lra.
  - rewrite delta_v_burning by lra.
    set (m := m0 - mdot * t) in *.
    assert (Hz : 0 < m0 / m) by (apply Rdiv_lt_0_compat; lra).
    pose proof (ln_lower_bound _ Hz) as Hln.
    replace (/ (m0 / m)) with (m / m0) in Hln by (field; lra).
    assert (Hfrac : 1 - m / m0 = mdot * t / m0) by (unfold m; field; lra).
    rewrite Hfrac in Hln.
    assert (Hstep : ve * (mdot * t / m0) <= ve * ln (m0 / m))
      by now apply Rmult_le_compat_l.
    assert (Hgain : 0 <= ve * (mdot * t / m0) - g * t).
    { replace (ve * (mdot * t / m0) - g * t)
        with (t * (ve * mdot - g * m0) / m0) by (field; lra).
      apply Rmult_le_pos; [| left; now apply Rinv_0_lt_compat].
      apply Rmult_le_pos; lra. }
    lra.
Qed.

Lemma delta_v_nonneg_witness : 0 <= delta_v 100 m0 mf mdot ve g.
Proof.
  apply delta_v_nonneg; unfold m0, mf, mdot, ve, g; lra.
Defined.



(** ** The burnout altitude of any rocket (lines 119-123) *)

(** X13. For every burn profile with [0 < mf < m0] and [mdot > 0], the integral
    that [quad] returns over [[0, (m0 - mf)/mdot]] exists and equals
    [ve*(T - (mf/mdot)*ln(m0/mf)) - g*T^2/2]. *)
Theorem burnout_altitude_any_profile m0 mf mdot ve g :
  0 < mf -> mf < m0 -> 0 < mdot ->
  (exists pr : Riemann_integrable (fun t => delta_v t m0 mf mdot ve g)
                                  0 ((m0 - mf) / mdot),
      quad (fun t => delta_v t m0 mf mdot ve g) 0 ((m0 - mf) / mdot)
      = RiemannInt pr)
  /\ quad (fun t => delta_v t m0 mf mdot ve g) 0 ((m0 - mf) / mdot)
     = altitude_closed_form m0 mf mdot ve g.
Proof.
  intros Hmf Hm0 Hmdot.
  pose proof (quad_delta_v m0 mf mdot ve g Hmf Hm0 Hmdot) as Hq.
  cbv zeta in Hq. split; [| exact Hq].
  exists (delta_v_integrable m0 mf mdot ve g Hmf Hm0 Hmdot).
  rewrite Hq. symmetry. now apply delta_v_integral.
Qed.

(** A rocket that halves its mass in one second, without gravity. *)
Lemma burnout_altitude_any_profile_witness :
  quad (fun t => delta_v t 2 1 1 1 0) 0 ((2 - 1) / 1)
  = altitude_closed_form 2 1 1 1 0.
Proof.
  apply (burnout_altitude_any_profile 2 1 1 1 0); lra.
Defined.

(** ** The potential depends on distance and mass only (lines 20-23) *)

(** X14. Equal distances give equal potentials, whatever the positions: the
    potential is invariant under translations and under exchanging source
    and query point; and it is linear in the mass, so co-located masses
    add. *)
Theorem gravitational_potential_isotropic :
  (forall M xM yM x y xM' yM' x' y',
      dist_euc x y xM yM = dist_euc x' y' xM' yM' ->
      gravitational_potential M xM yM x y = gravitational_potential M xM' yM' x' y')
  /\ (forall M xM yM x y a b,
      gravitational_potential M (xM + a) (yM + b) (x + a) (y + b)
      = gravitational_potential M xM yM x y)
  /\ (forall M xM yM x y,
      gravitational_potential M x y xM yM = gravitational_potential M xM yM x y)
  /\ (forall c M Ma xM yM x y,
      gravitational_potential (c * M + Ma) xM yM x y
      = c * gravitational_potential M xM yM x y
        + gravitational_potential Ma xM yM x y).
Proof.
  split; [| split; [| split]].
  - intros M xM yM x y xM' yM' x' y' Hd.
    now rewrite !gravitational_potential_dist, Hd.
  - intros M xM yM x y a b. unfold gravitational_potential.
    now replace (x + a - (xM + a)) with (x - xM) by ring;
      replace (y + b - (yM + b)) with (y - yM) by ring.
  - intros M xM yM x y. unfold gravitational_potential.
    now replace ((xM - x) ^ 2 + (yM - y) ^ 2)
      with ((x - xM) ^ 2 + (y - yM) ^ 2) by ring.
  - intros c M Ma xM yM x y. rewrite !gravitational_potential_dist.
    pose proof (clamp_r_ge (dist_euc x y xM yM)). field. lra.
Qed.

(** ** The 1-D profile that is plotted (lines 26-27) *)

Lemma linspace_increasing (a b : R) (n j k : nat) vj vk :
  a < b -> (j < k)%nat ->
  linspace a b n !! j = Some vj -> linspace a b n !! k = Some vk -> vj < vk.
Proof.
  intros Hab Hjk Hj Hk.
  apply lookup_linspace_Some in Hj as [_ ->].
  apply lookup_linspace_Some in Hk as [Hkn ->].
  assert (Hpos : 0 < INR (n - 1)) by (apply lt_0_INR; lia).
  assert (Hstep : 0 < (b - a) / INR (n - 1)) by (apply Rdiv_lt_0_compat; lra).
  apply lt_INR in Hjk. nra.
Qed.

Lemma x_vals_from_surface (k : nat) xv : x_vals !! k = Some xv -> R_earth <= xv.
Proof.
  intros Hk. unfold x_vals in Hk. apply lookup_linspace_Some in Hk as [_ ->].
  assert (Hstep : 0 <= (1.5 * d_earth_moon - R_earth) / INR (1000 - 1)).
  { apply Rmult_le_pos; [unfold d_earth_moon, R_earth; lra |].
    left. apply Rinv_0_lt_compat, lt_0_INR. lia. }
  pose proof (pos_INR k). nra.
Qed.

Lemma lookup_phi_vals (k : nat) :
  phi_vals !! k
  = (fun xv => Rabs (gravitational_potential M_earth 0 0 xv 0)) <$> x_vals !! k.
Proof. unfold phi_vals. apply list_lookup_fmap. Qed.

Lemma phi_vals_entry (k : nat) p :
  phi_vals !! k = Some p ->
  exists xv, x_vals !! k = Some xv /\ R_earth <= xv /\ p = G * M_earth / xv.
Proof.
  rewrite lookup_phi_vals. destruct (x_vals !! k) as [xv |] eqn:Hxv; [| discriminate].
  cbn. intros [= <-]. exists xv.
  pose proof (x_vals_from_surface k xv Hxv) as Hsurf.
  assert (HR : 1e3 < R_earth) by (unfold R_earth; lra).
  split; [reflexivity |]. split; [exact Hsurf |].
  rewrite gravitational_potential_far by (rewrite dist_euc_axis; lra).
  rewrite dist_euc_axis by lra. rewrite Rabs_Ropp. apply Rabs_pos_eq.
  left. apply Rdiv_lt_0_compat; [| lra].
  apply Rmult_lt_0_compat; [apply G_pos | unfold M_earth; lra].
Qed.

(** X15. The plotted curve has 1000 samples taken from the Earth's surface
    outwards, where nothing is clamped: each is [G*M_earth/x], strictly
    positive (as the log axis needs) and strictly decreasing along the
    array. *)
Theorem phi_vals_profile :
  length phi_vals = 1000%nat
  /\ (forall (k : nat) p, phi_vals !! k = Some p ->
      exists xv, x_vals !! k = Some xv /\ R_earth <= xv /\ p = G * M_earth / xv)
  /\ (forall (j k : nat) pj pk, (j < k)%nat ->
      phi_vals !! j = Some pj -> phi_vals !! k = Some pk -> 0 < pk < pj).
Proof.
  split; [| split].
  - unfold phi_vals, x_vals. now rewrite length_map, length_linspace.
  - exact phi_vals_entry.
  - intros j k pj pk Hjk Hj Hk.
    apply phi_vals_entry in Hj as (xj & Hxj & Hsj & ->).
    apply phi_vals_entry in Hk as (xk & Hxk & Hsk & ->).
    assert (Hlt : xj < xk).
    { apply (linspace_increasing R_earth (1.5 * d_earth_moon) 1000 j k);
        [unfold R_earth, d_earth_moon; lra | exact Hjk | exact Hxj | exact Hxk]. }
    assert (HR : 0 < R_earth) by (unfold R_earth; lra).
    assert (HGM : 0 < G * M_earth)
      by (apply Rmult_lt_0_compat; [apply G_pos | unfold M_earth; lra]).
    split.
    + apply Rdiv_lt_0_compat; lra.
    + apply Rmult_lt_compat_l; [exact HGM |]. apply Rinv_lt_contravar; nra.
Qed.

(** ** The force loop: bounds, and the magnitude array (lines 89-100) *)

Lemma getitem2_out_of_range (n : nat) (A : list (list R)) (i j : nat) :
  shape n A -> (n <= i)%nat \/ (n <= j)%nat -> getitem2 A i j = None.
Proof.
  intros [Hlen Hrows] Hij. unfold getitem2.
  destruct (A !! i) as [row |] eqn:Hrow; [| reflexivity]. cbn.
  pose proof (Forall_lookup_1 _ _ _ _ Hrows Hrow) as Hr. cbn in Hr.
  apply lookup_lt_Some in Hrow. apply lookup_ge_None. lia.
Qed.

Lemma force_cell_out_of_range (n : nat) (X Y : list (list R)) (i j : nat) F :
  shape n X -> (n <= i)%nat \/ (n <= j)%nat -> force_cell X Y (i, j) F = None.
Proof.
  intros HX Hij. unfold force_cell.
  now rewrite (getitem2_out_of_range n X i j HX Hij).
Qed.

(** X16. The loop bound must fit the arrays.  Run to a bound [n] larger than the
    [m] by [m] arrays, the loop raises (while still in row 0); run to a
    smaller bound it succeeds and fills the top-left
    [n] by [n] block only, leaving zeros elsewhere. *)
Theorem force_loop_bounds (n m : nat) (X Y : list (list R)) :
  shape m X -> shape m Y ->
  ((m < n)%nat -> force_loop n X Y = None)
  /\ ((n <= m)%nat ->
      exists Fx Fy,
        force_loop n X Y = Some (Fx, Fy)
        /\ forall i j : nat,
            getitem2 Fx i j
            = (if decide ((i < n)%nat /\ (j < n)%nat)
               then getitem2 (fst (force_map X Y)) i j
               else getitem2 (zeros_like X) i j)
            /\ getitem2 Fy i j
               = (if decide ((i < n)%nat /\ (j < n)%nat)
                  then getitem2 (snd (force_map X Y)) i j
                  else getitem2 (zeros_like Y) i j)).
Proof.
  intros HX HY. split.
  - intros Hmn. unfold force_loop.
    replace n with (S (n - 1)) at 1 by lia. cbn [seq for_in].
    replace n with (m + (n - m))%nat at 1 by lia. rewrite seq_app, for_in_app.
    destruct (for_in (seq 0 m) _ _) as [F' |]; [| reflexivity]. bind_step.
    replace (n - m)%nat with (S (n - m - 1)) by lia. cbn [seq for_in].
    rewrite (force_cell_out_of_range m) by (auto with lia). reflexivity.
  - intros Hnm. rewrite force_loop_row_major.
    destruct (for_in_force_cells m X Y HX HY (row_major n)
                (zeros_like X, zeros_like Y))
      as ([Fx Fy] & Hrun & _ & _ & Hget).
    + now apply shape_zeros_like.
    + now apply shape_zeros_like.
    + intros i j Hmem. apply elem_of_row_major in Hmem. lia.
    + exists Fx, Fy. split; [exact Hrun |]. intros i j.
      destruct (Hget i j) as [H1 H2]. cbn [fst snd] in H1, H2. rewrite H1, H2.
      destruct (decide ((i < n)%nat /\ (j < n)%nat)) as [Hin | Hout].
      * rewrite !decide_True by now apply elem_of_row_major. now split.
      * rewrite !decide_False by now rewrite elem_of_row_major. now split.
Qed.

(** A loop bound of 2 on a 1 by 1 grid. *)
Lemma force_loop_bounds_witness : force_loop 2 [[1e6]] [[1e6]] = None.
Proof.
  assert (Hs : shape 1 [[1e6]]) by (split; [reflexivity | repeat constructor]).
  destruct (force_loop_bounds 2 1 [[1e6]] [[1e6]] Hs Hs) as [Hraise _].
  apply Hraise. lia.
Defined.

(** X17. After the loop, the [magnitude] array has the grid's shape and its entry
    at [(i, j)] is the Euclidean norm of the total force at the grid point
    [(X[i,j], Y[i,j])]. *)
Theorem magnitude_of_loop (n : nat) (X Y : list (list R)) :
  shape n X -> shape n Y ->
  exists Fx_total Fy_total,
    force_loop n X Y = Some (Fx_total, Fy_total)
    /\ shape n (magnitude Fx_total Fy_total)
    /\ forall (i j : nat) xq yq,
        getitem2 X i j = Some xq -> getitem2 Y i j = Some yq ->
        getitem2 (magnitude Fx_total Fy_total) i j
        = Some (norm2 (fst (total_force xq yq)) (snd (total_force xq yq))).
Proof.
  intros HX HY.
  exists (fst (force_map X Y)), (snd (force_map X Y)).
  destruct (shape_force_map n X Y HX HY) as [Hs1 Hs2].
  split; [| split].
  - rewrite force_loop_row_major. now apply (for_in_any_order n).
  - now apply shape_broadcast2.
  - intros i j xq yq Hxq Hyq. unfold magnitude.
    destruct (getitem2_force_map X Y i j) as [H1 H2].
    now rewrite getitem2_broadcast2, H1, H2, Hxq, Hyq.
Qed.

(** The notebook's own arrays. *)
Lemma magnitude_of_loop_witness :
  exists Fx_total Fy_total,
    Fx_Fy_total = Some (Fx_total, Fy_total)
    /\ shape grid_pts (magnitude Fx_total Fy_total).
Proof.
  destruct (magnitude_of_loop grid_pts X Y shape_X shape_Y)
    as (Fx & Fy & Hloop & Hshape & _).
  exists Fx, Fy. split; [exact Hloop | exact Hshape].
Defined.

(** ** Mirror symmetry about the Earth-Moon axis (lines 55-57, 94-98) *)

Lemma gravitational_force_swap M m xs ys x y :
  gravitational_force M m ys xs y x
  = (snd (gravitational_force M m xs ys x y),
     fst (gravitational_force M m xs ys x y)).
Proof.
  unfold gravitational_force. cbn [fst snd].
  now replace ((y - ys) ^ 2 + (x - xs) ^ 2)
    with ((x - xs) ^ 2 + (y - ys) ^ 2) by ring.
Qed.

Lemma total_force_swap xq yq :
  total_force yq xq = (snd (total_force xq yq), fst (total_force xq yq)).
Proof.
  unfold total_force.
  rewrite (gravitational_force_swap M_earth m_cmd 0 0 xq yq).
  change (gravitational_force M_moon m_cmd x_moon y_moon yq xq)
    with (gravitational_force M_moon m_cmd y_moon x_moon yq xq).
  rewrite (gravitational_force_swap M_moon m_cmd x_moon y_moon xq yq).
  destruct (gravitational_force M_earth m_cmd 0 0 xq yq) as [Fx1 Fy1].
  destruct (gravitational_force M_moon m_cmd x_moon y_moon xq yq) as [Fx2 Fy2].
  reflexivity.
Qed.

(** X18. The Earth is at the origin and the Moon on the diagonal, so the computed
    fields are mirror images of themselves in the diagonal: [phi_total] is a
    symmetric array, and [Fx_total] is the transpose of [Fy_total]. *)
Theorem fields_symmetric_in_diagonal :
  (forall i j : nat, getitem2 phi_total i j = getitem2 phi_total j i)
  /\ (forall xq yq,
      total_force yq xq = (snd (total_force xq yq), fst (total_force xq yq)))
  /\ (exists Fx_total Fy_total,
      Fx_Fy_total = Some (Fx_total, Fy_total)
      /\ forall i j : nat, getitem2 Fx_total i j = getitem2 Fy_total j i).
Proof.
  split; [| split; [exact total_force_swap |]].
  - intros i j. unfold phi_total. rewrite !getitem2_potential_sum.
    rewrite (getitem2_Y_transpose i j), (getitem2_Y_transpose j i).
    destruct (getitem2 X j i) as [a |]; destruct (getitem2 X i j) as [b |];
      try reflexivity.
    bind_step. f_equal.
    rewrite (gravitational_potential_swap M_earth 0 0 b a).
    rewrite (gravitational_potential_swap M_moon x_moon y_moon b a).
    reflexivity.
  - exists (fst (force_map X Y)), (snd (force_map X Y)).
    split; [rewrite <- surjective_pairing; apply Fx_Fy_total_is_map |].
    intros i j.
    destruct (getitem2_force_map X Y i j) as [H1 _].
    destruct (getitem2_force_map X Y j i) as [_ H2].
    rewrite H1, H2, (getitem2_Y_transpose i j), (getitem2_Y_transpose j i).
    destruct (getitem2 X j i) as [a |]; destruct (getitem2 X i j) as [b |];
      try reflexivity.
    bind_step. now rewrite (total_force_swap b a).
Qed.
